(** * ddddocr-core: the decoding pipeline of [OcrBase.js] and [DetectionBase.js]

    A shallow embedding of the two classes of the package and the properties
    of their pre-processing and post-processing code.

    Conventions of the embedding.
    - A JavaScript number that takes part in arithmetic is an exact rational
      ([Q]); rounding (the tensors are [float32]) is not represented.  The
      quotients that [_nms] compares with its threshold are [js_number]s,
      with [NaN] and the infinities.  Elsewhere a JavaScript expression
      whose value would not be a finite number (a division by zero) is
      reported as [None].
    - A JavaScript string is a [string]; a one-character string stands for
      one code point.  [undefined] read from an array is [None].
    - A [Set<string>] is a [gset string].
    - A call that throws returns [None] (or [Throw] where the message
      matters).
    - A byte of a bitmap is an integer ([Z]). *)

From Stdlib Require Import ZArith QArith Qminmax Qround Qabs Qcanon Ascii String
  Sorted Lqa.
From stdpp Require Import base option list strings gmap sets.

Local Open Scope string_scope.
Local Open Scope list_scope.

(** ** JavaScript values *)

Inductive js_number : Type :=
  | Finite (q : Q)
  | NaN
  | Infinity (negative : bool).

Inductive js_value : Type :=
  | JSNumber (n : js_number)
  | JSString (s : string)
  | JSBoolean (b : bool)
  | JSUndefined
  | JSNull
  | JSObject
  | JSFunction
  | JSSymbol
  | JSBigInt (z : Z).

(** The [typeof] operator. *)
Definition typeof (v : js_value) : string :=
  match v with
  | JSNumber _ => "number"
  | JSString _ => "string"
  | JSBoolean _ => "boolean"
  | JSUndefined => "undefined"
  | JSNull => "object"
  | JSObject => "object"
  | JSFunction => "function"
  | JSSymbol => "symbol"
  | JSBigInt _ => "bigint"
  end.

(** [n === k] for an integer literal [k], as the [case] labels of a
    [switch] compare: [NaN] and the infinities equal no literal. *)
Definition strict_equals (n : js_number) (k : Z) : bool :=
  match n with
  | Finite q => Qeq_bool q (inject_Z k)
  | NaN => false
  | Infinity _ => false
  end.

(** The code points of a string, each as a one-character string: the
    iteration order of [for (const c of s)]. *)
Definition string_chars (s : string) : list string :=
  (λ a, String a EmptyString) <$> list_ascii_of_string s.

(** [new Set(s)] for a string [s]. *)
Definition new_Set (s : string) : gset string := list_to_set (string_chars s).

(** [set.has(v)] where [v] may be [undefined]: the sets hold strings only. *)
Definition has (set : gset string) (v : option string) : bool :=
  match v with
  | Some c => bool_decide (c ∈ set)
  | None => false
  end.

(** [array.join('')]: [undefined] elements print as the empty string. *)
Definition join (parts : list (option string)) : string :=
  foldr (λ part rest, default "" part +:+ rest) "" parts.

Module OcrBase.

(** The enum [CHARSET_RANGE]. *)
Module CHARSET_RANGE.
Definition NUM_CASE : Z := 0.
Definition LOWWER_CASE : Z := 1.
Definition UPPER_CASE : Z := 2.
Definition MIX_LOWWER_UPPER_CASE : Z := 3.
Definition MIX_LOWWER_NUM_CASE : Z := 4.
Definition MIX_UPPER_NUM_CASE : Z := 5.
Definition MIX_LOWWER_UPPER_NUM_CASE : Z := 6.
Definition NO_LOWEER_UPPER_NUM_CASE : Z := 7.
End CHARSET_RANGE.

Definition NUM_CASE : string := "0123456789".
Definition LOWWER_CASE : string := "abcdefghijklmnopqrstuvwxyz".
Definition UPPER_CASE : string := "ABCDEFGHIJKLMNOPQRSTUVWXYZ".
Definition MIX_LOWWER_UPPER_CASE : string := LOWWER_CASE +:+ UPPER_CASE.
Definition MIX_LOWWER_NUM_CASE : string := LOWWER_CASE +:+ NUM_CASE.
Definition MIX_UPPER_NUM_CASE : string := UPPER_CASE +:+ NUM_CASE.
Definition MIX_LOWER_UPPER_NUM_CASE : string :=
  LOWWER_CASE +:+ UPPER_CASE +:+ NUM_CASE.

(** The fields of an [OCRBase] instance. *)
Record OCRBase : Type := {
  _ocrOnnxPath : string;
  _charsetPath : string;
  _validCharSet : gset string;
  _inValidCharSet : gset string
}.

Definition constructor (onnxPath charsetPath : string) : OCRBase :=
  {| _ocrOnnxPath := onnxPath;
     _charsetPath := charsetPath;
     _validCharSet := ∅;
     _inValidCharSet := ∅ |}.

(** *** Methods that mutate [this]

    A method is a function from the instance before the call to its
    completion and the instance after it.  The methods return [this] for
    chaining; the returned reference carries no information of its own and
    is modelled by [tt]. *)

Inductive completion (A : Type) : Type :=
  | Return (a : A)
  | Throw (message : string).
Arguments Return {A} a.
Arguments Throw {A} message.

Definition method (A : Type) : Type := OCRBase → completion A * OCRBase.

Definition ret {A} (a : A) : method A := λ this, (Return a, this).
Definition throw {A} (message : string) : method A :=
  λ this, (Throw message, this).
Definition bind {A B} (m : method A) (k : A → method B) : method B :=
  λ this,
    match m this with
    | (Return a, this') => k a this'
    | (Throw message, this') => (Throw message, this')
    end.

Notation "m1 ;;; m2" := (bind m1 (λ _, m2))
  (at level 100, right associativity).

Definition setValidCharSet (charset : string) : method unit :=
  λ this,
    (Return tt,
     {| _ocrOnnxPath := _ocrOnnxPath this;
        _charsetPath := _charsetPath this;
        _validCharSet := new_Set charset;
        _inValidCharSet := _inValidCharSet this |}).

Definition setInValidCharset (charset : string) : method unit :=
  λ this,
    (Return tt,
     {| _ocrOnnxPath := _ocrOnnxPath this;
        _charsetPath := _charsetPath this;
        _validCharSet := _validCharSet this;
        _inValidCharSet := new_Set charset |}).

Definition _isValidChar (this : OCRBase) (char : option string) : bool :=
  if has (_inValidCharSet this) char then false
  else if (size (_validCharSet this) =? 0)%nat then true
  else has (_validCharSet this) char.

(** The inner [switch (charsetRange)] of [setRanges], on a number. *)
Definition setRanges_number (n : js_number) : method unit :=
  if strict_equals n CHARSET_RANGE.NUM_CASE then
    setValidCharSet NUM_CASE
  else if strict_equals n CHARSET_RANGE.LOWWER_CASE then
    setValidCharSet LOWWER_CASE
  else if strict_equals n CHARSET_RANGE.UPPER_CASE then
    setValidCharSet UPPER_CASE
  else if strict_equals n CHARSET_RANGE.MIX_LOWWER_UPPER_CASE then
    setValidCharSet MIX_LOWWER_UPPER_CASE
  else if strict_equals n CHARSET_RANGE.MIX_LOWWER_NUM_CASE then
    setValidCharSet MIX_LOWWER_NUM_CASE
  else if strict_equals n CHARSET_RANGE.MIX_UPPER_NUM_CASE then
    setValidCharSet MIX_UPPER_NUM_CASE
  else if strict_equals n CHARSET_RANGE.MIX_LOWWER_UPPER_NUM_CASE then
    setValidCharSet MIX_LOWER_UPPER_NUM_CASE
  else if strict_equals n CHARSET_RANGE.NO_LOWEER_UPPER_NUM_CASE then
    setInValidCharset MIX_LOWER_UPPER_NUM_CASE
  else
    throw "Not support type".

(** [setRanges]: the outer [switch (typeof(charsetRange))].  The constructors
    [JSNumber] and [JSString] are the values whose [typeof] is ['number'] and
    ['string'] (lemmas [typeof_number] and [typeof_string]).  The TypeScript
    source of the class differs in the message only
    (['Not supported type']). *)
Definition setRanges (charsetRange : js_value) : method unit :=
  match charsetRange with
  | JSNumber n => (* case 'number' *)
      setRanges_number n ;;; ret tt
  | JSString s => (* case 'string' *)
      setValidCharSet s ;;; ret tt
  | _ => (* default *)
      throw "Not support type"
  end.

(** *** The sequence decoder *)

(** The two variables the loop of [_parseToChar] updates. *)
Record parse_state : Type := {
  lastItem : nat;
  result : list (option string)
}.

(** One turn of [for (let i = 0; i < argmaxData.length; i++)]. *)
Definition parse_step (this : OCRBase) (argmaxData : list nat)
    (charset : list string) (st : parse_state) (i : nat) : parse_state :=
  match argmaxData !! i with
  | None => st
  | Some item =>
      if (item =? lastItem st)%nat then st
      else
        let char := charset !! item in
        {| lastItem := item;
           result :=
             if negb (item =? 0)%nat && _isValidChar this char
             then result st ++ [char]
             else result st |}
  end.

Definition _parseToChar (this : OCRBase) (argmaxData : list nat)
    (charset : list string) : string :=
  join (result (foldl (parse_step this argmaxData charset)
                  {| lastItem := 0; result := [] |}
                  (seq 0 (length argmaxData)))).

End OcrBase.


Module DetectionBase.

Local Open Scope Q_scope.

(** [a < b] on numbers. *)
Definition Qltb (a b : Q) : bool := negb (Qle_bool b a).

(** A corner-form box [[x1, y1, x2, y2]]: an array of exactly four numbers. *)
Abbreviation box := (Q * Q * Q * Q)%type.

(** *** Tensor primitives

    Tensors of rank one are lists, tensors of rank two are lists of rows. *)

(** [t.slice(0, 1)] and [t.slice(1)] on a tensor of rank one. *)
Definition slice_first (t : list Q) : list Q := take 1 t.
Definition slice_rest (t : list Q) : list Q := drop 1 t.

(** An elementwise operation with the broadcasting of the shapes that occur
    in [_nms]: a tensor of one element against a tensor of any length, or
    two tensors of one length. *)
Definition broadcast {A} (f : Q → Q → A) (a b : list Q) : list A :=
  match a, b with
  | [x], _ => f x <$> b
  | _, [y] => (λ x, f x y) <$> a
  | _, _ => zip_with f a b
  end.

Definition tf_add : list Q → list Q → list Q := broadcast Qplus.
Definition tf_sub : list Q → list Q → list Q := broadcast Qminus.
Definition tf_mul : list Q → list Q → list Q := broadcast Qmult.
Definition tf_maximum : list Q → list Q → list Q := broadcast Qmax.
Definition tf_minimum : list Q → list Q → list Q := broadcast Qmin.

(** The quotient [a / b] when it is a finite number. *)
Definition js_div (a b : Q) : option Q :=
  if Qeq_bool b 0 then None else Some (a / b).

(** [a / b] on numbers.  A division by zero gives [NaN] when the dividend is
    zero too, and otherwise the infinity that has the sign of the dividend
    (the zero of the model is [+0]). *)
Definition js_divide (a b : Q) : js_number :=
  if Qeq_bool b 0 then
    if Qeq_bool a 0 then NaN else Infinity (Qltb a 0)
  else Finite (a / b).

(** [a.div(b)] *)
Definition tf_div : list Q → list Q → list js_number := broadcast js_divide.

(** [tf.gather(t, indices)]. *)
Definition tf_gather {A} (t : list A) (indices : list nat) : option (list A) :=
  mapM (λ i, t !! i) indices.

(** [t.slice([0, begin], [-1, size])] on a tensor of rank two.  [tf.tensor]
    of an empty array has rank one, and a slice beyond the columns fails. *)
Definition slice_columns (begin size : nat) (t : list (list Q))
    : option (list (list Q)) :=
  match t with
  | [] => None
  | row :: _ =>
      if (begin + size <=? length row)%nat
      then Some ((λ r, take size (drop begin r)) <$> t)
      else None
  end.

(** [tf.reshape(tensor, [h, w, c])], as nested rows. *)
Fixpoint chunks {A} (count size : nat) (data : list A) : list (list A) :=
  match count with
  | O => []
  | S count' => take size data :: chunks count' size (drop size data)
  end.

Definition reshape (cpuData : list Q) (dims : nat * nat * nat)
    : option (list (list (list Q))) :=
  let '(h, w, c) := dims in
  if (length cpuData =? h * w * c)%nat
  then Some (chunks w c <$> chunks h (w * c) cpuData)
  else None.

(** [t.arraySync()] on a tensor of rank three: its nested arrays, and the
    empty array for a tensor that has no element. *)
Definition arraySync (t : list (list (list Q))) : list (list (list Q)) :=
  match concat (concat t) with
  | [] => []
  | _ :: _ => t
  end.

(** *** Grid reconstruction *)

Definition strides : list nat := [8; 16; 32]%nat.

(** The [grid] of one stride: [x] runs fastest. *)
Definition make_grid (hsize wsize : nat) : list (nat * nat) :=
  concat ((λ y, (λ x, (x, y)) <$> seq 0 wsize) <$> seq 0 hsize).

Definition flatGrids (imageSize : nat * nat) : list (nat * nat) :=
  concat ((λ stride, make_grid (fst imageSize / stride) (snd imageSize / stride))
            <$> strides).

Definition flatExpandedStrides (imageSize : nat * nat) : list nat :=
  concat ((λ stride,
             replicate
               (length (make_grid (fst imageSize / stride) (snd imageSize / stride)))
               stride)
            <$> strides).

Definition of_nat (n : nat) : Q := inject_Z (Z.of_nat n).

Definition adjustBoundingBoxCoordinates (output grid expandedStride : Q) : Q :=
  (output + grid) * expandedStride.

Section with_exp.

(** [Math.exp]. *)
Variable Math_exp : Q → Q.

(** The body of the inner loop of [_demoPostProcess] on [outputs[i][j]].  A
    row of fewer than four attributes would be filled with [NaN], which is
    no number of the model. *)
Definition decode_anchor (output : list Q) (grid : nat * nat)
    (expandedStride : nat) : option (list Q) :=
  match output with
  | o0 :: o1 :: o2 :: o3 :: rest =>
      Some (adjustBoundingBoxCoordinates o0 (of_nat (fst grid)) (of_nat expandedStride)
            :: adjustBoundingBoxCoordinates o1 (of_nat (snd grid)) (of_nat expandedStride)
            :: Math_exp o2 * of_nat expandedStride
            :: Math_exp o3 * of_nat expandedStride
            :: rest)
  | _ => None
  end.

(** The loop over [j] for one [i]: [flatExpandedStrides[j][0]] throws past
    the last grid cell. *)
Definition decode_anchors (imageSize : nat * nat) (anchors : list (list Q))
    : option (list (list Q)) :=
  mapM (λ '(j, output),
          grid ← flatGrids imageSize !! j;
          expandedStride ← flatExpandedStrides imageSize !! j;
          decode_anchor output grid expandedStride)
       (imap (λ j output, (j, output)) anchors).

Definition _demoPostProcess (cpuData : list Q) (dims : nat * nat * nat)
    (imageSize : nat * nat) : option (list (list Q)) :=
  reshapedTensor ← reshape cpuData dims;
  let outputs := arraySync reshapedTensor in
  outputs ← mapM (decode_anchors imageSize) outputs;
  head outputs.

End with_exp.

(** *** Box decoding *)

(** The four numerators of [_calcBbox], before the division by [ratio]. *)
Definition corners (boxes : list Q) : option box :=
  match boxes with
  | [b0; b1; b2; b3] =>
      Some (b0 - b2 / 2, b1 - b3 / 2, b0 + b2 / 2, b1 + b3 / 2)
  | _ => None
  end.

Definition unscale (ratio : Q) (b : box) : box :=
  let '(x1, y1, x2, y2) := b in
  (x1 / ratio, y1 / ratio, x2 / ratio, y2 / ratio).

(** [_calcBbox] on the rows of the [boxes] tensor.  With [ratio = 0] no
    coordinate is a finite number. *)
Definition _calcBbox (boxes : list (list Q)) (ratio : Q) : option (list box) :=
  if Qeq_bool ratio 0 then None
  else mapM (λ boxes, unscale ratio <$> corners boxes) boxes.

(** *** Non-maximum suppression *)

Definition _getCurrentBox (boxes : list box) (orders : option (list nat))
    : option (list Q * list Q * list Q * list Q) :=
  let orders := default (seq 0 (length boxes)) orders in
  selected ← mapM (λ order, boxes !! order) orders;
  Some ((λ '(x1, _, _, _), x1) <$> selected,
        (λ '(_, y1, _, _), y1) <$> selected,
        (λ '(_, _, x2, _), x2) <$> selected,
        (λ '(_, _, _, y2), y2) <$> selected).

(** [v <= nmsThr] on numbers: false on [NaN] and on [Infinity], true on
    [-Infinity]. *)
Definition js_le (v : js_number) (nmsThr : Q) : bool :=
  match v with
  | Finite q => Qle_bool q nmsThr
  | NaN => false
  | Infinity negative => negative
  end.

Definition _where (ovr : list js_number) (nmsThr : Q) : list nat :=
  omap (λ '(i, v), if js_le v nmsThr then Some i else None)
       (imap (λ i v, (i, v)) ovr).

(** Modelled from the spec: [argSort] of [utils/array-utils] is not among
    the sources.  Section 4.6: "Order all indices by descending score", with
    the "stable order of original index when scores are equal (since the
    ordering is a stable sort)".  Here the index [i] goes into a list of
    later indices, before the first of them whose score is not higher. *)
Fixpoint argSort_insert (scores : list Q) (i : nat) (sorted : list nat)
    : list nat :=
  match sorted with
  | [] => [i]
  | j :: rest =>
      if Qle_bool (nth j scores 0) (nth i scores 0)
      then i :: j :: rest
      else j :: argSort_insert scores i rest
  end.

(** Modelled from the spec: [argSort(scores)] of [utils/array-utils], the
    indices of [scores] by descending score, an index before the later
    indices of the same score. *)
Definition argSort (scores : list Q) : list nat :=
  foldr (argSort_insert scores) [] (seq 0 (length scores)).

(** One turn of [while (order.length > 0)]: the next [order]. *)
Definition nms_next (boxes : list box) (areas : list Q) (nmsThr : Q)
    (order : list nat) : option (list nat) :=
  '(x1, y1, x2, y2) ← _getCurrentBox boxes (Some order);
  let xx1 := tf_maximum (slice_first x1) (slice_rest x1) in
  let yy1 := tf_maximum (slice_first y1) (slice_rest y1) in
  let xx2 := tf_minimum (slice_first x2) (slice_rest x2) in
  let yy2 := tf_minimum (slice_first y2) (slice_rest y2) in
  let w := tf_maximum [0] (tf_add (tf_sub xx2 xx1) [1]) in
  let h := tf_maximum [0] (tf_add (tf_sub yy2 yy1) [1]) in
  let inter := tf_mul w h in
  gathered ← tf_gather areas order;
  let ovr :=
    tf_div inter (tf_sub (tf_add (slice_first areas) (slice_rest gathered)) inter) in
  let inds := _where ovr nmsThr in
  tf_gather order ((λ i, i + 1)%nat <$> inds).

(** The loop of [_nms]; every turn shortens [order], so [length order]
    turns are enough (lemma [nms_while_fuel]). *)
Fixpoint nms_while (fuel : nat) (boxes : list box) (areas : list Q)
    (nmsThr : Q) (order keep : list nat) : option (list nat) :=
  match order with
  | [] => Some keep
  | i :: _ =>
      match fuel with
      | O => None
      | S fuel' =>
          let keep := (keep ++ [i])%list in
          order ← nms_next boxes areas nmsThr order;
          nms_while fuel' boxes areas nmsThr order keep
      end
  end.

Definition _nms (boxes : list box) (scores : list Q) (nmsThr : Q)
    : option (list nat) :=
  let order := argSort scores in
  '(x1, y1, x2, y2) ← _getCurrentBox boxes None;
  let areas := tf_mul (tf_add (tf_sub x2 x1) [1]) (tf_add (tf_sub y2 y1) [1]) in
  nms_while (length order) boxes areas nmsThr order [].

(** The first loop of [_multiclassNmsClassAgnostic].  A score with no box
    ([clsBoxes[i]] undefined) makes [_getCurrentBox] throw on its first
    call; the model fails on meeting it. *)
Fixpoint valid_pairs (clsScores : list Q) (clsBoxes : list box) (scoreThr : Q)
    (i : nat) : option (list Q * list box) :=
  match clsScores with
  | [] => Some ([], [])
  | score :: clsScores' =>
      if Qltb scoreThr score then
        b ← clsBoxes !! i;
        '(validScores, validBoxes) ← valid_pairs clsScores' clsBoxes scoreThr (S i);
        Some (score :: validScores, b :: validBoxes)
      else valid_pairs clsScores' clsBoxes scoreThr (S i)
  end.

Definition _multiclassNmsClassAgnostic (boxes : list box)
    (scores : list (list Q)) (nmsThr scoreThr : Q) : option (list box) :=
  let clsScores := concat scores in
  let clsBoxes := boxes in
  '(validScores, validBoxes) ← valid_pairs clsScores clsBoxes scoreThr 0;
  keep ← _nms validBoxes validScores nmsThr;
  mapM (λ targetIdx, validBoxes !! targetIdx) keep.

Definition _multiclassNms (boxes : list box) (scores : list (list Q))
    (nmsThr scoreThr : Q) : option (list box) :=
  _multiclassNmsClassAgnostic boxes scores nmsThr scoreThr.

(** *** Clipping *)

(** Whether [Number::toString] prints [x] in exponent notation: a number
    other than zero of magnitude below [1e-6], or from [1e21] on. *)
Definition exponent_notation (x : Q) : bool :=
  negb (Qeq_bool x 0)
  && (Qltb (Qabs x) (1 # 1000000) || Qle_bool (inject_Z (10 ^ 21)) (Qabs x)).

(** The first digit of [n / d] for [0 < n < d]: the first quotient that is
    not zero when [n] is multiplied by ten again and again. *)
Fixpoint first_digit_below_one (fuel : nat) (n d : Z) : Z :=
  match fuel with
  | O => 0%Z
  | S fuel' =>
      let n' := (10 * n)%Z in
      if (d <=? n')%Z then (n' / d)%Z else first_digit_below_one fuel' n' d
  end.

(** The first digit of [n / d] for [d ≤ n]: the quotient once [d], multiplied
    by ten again and again, is more than a tenth of [n]. *)
Fixpoint first_digit_from_one (fuel : nat) (n d : Z) : Z :=
  match fuel with
  | O => 0%Z
  | S fuel' =>
      if (n <? 10 * d)%Z then (n / d)%Z else first_digit_from_one fuel' n (10 * d)%Z
  end.

(** The first significant digit of [n / d], for positive [n] and [d]; the
    binary length of [d], or of [n], bounds the steps (lemma
    [first_digit_range]). *)
Definition first_digit (n d : Z) : Z :=
  if (n <? d)%Z
  then first_digit_below_one (S (Z.to_nat (Z.log2 d))) n d
  else first_digit_from_one (S (Z.to_nat (Z.log2 n))) n d.

(** [parseInt(x)] of a number [x] prints [x] ([Number::toString]) and reads
    the digits before the first character that is no digit.
    - In positional notation (["0"], ["3.9"], ["-2.5"], ["0.000001"]) the
      digits read are the integer part.
    - In exponent notation the first digit comes first (["5e-7"],
      ["4.76837158203125e-7"], ["1e+21"]): that digit alone is read.
    The digits printed are taken to be those of the exact value. *)
Definition parseInt (x : Q) : Z :=
  if exponent_notation x
  then (Z.sgn (Qnum x) * first_digit (Z.abs (Qnum x)) (Z.pos (Qden x)))%Z
  else (Qnum x ÷ Z.pos (Qden x))%Z.

Definition _parseToXyxy (prediction : list box) (width height : Z)
    : list (Z * Z * Z * Z) :=
  (λ '(x1, y1, x2, y2),
     let minX := if Qltb x1 0 then 0%Z else parseInt x1 in
     let minY := if Qltb y1 0 then 0%Z else parseInt y1 in
     let maxX := if Qltb (inject_Z width) x2 then width else parseInt x2 in
     let maxY := if Qltb (inject_Z height) y2 then height else parseInt y2 in
     (minX, minY, maxX, maxY)) <$> prediction.

(** *** The pipeline *)

(** The local [scores] of [_postProcess]: the tensor handed to the
    suppression. *)
Definition _postProcess_scores (predictions : list (list Q))
    : option (list (list Q)) :=
  objectness ← slice_columns 4 1 predictions;
  classes ← slice_columns 5 1 predictions;
  Some (zip_with tf_mul objectness classes).

Section pipeline.

Variable Math_exp : Q → Q.

Definition _postProcess (cpuData : list Q) (dims : nat * nat * nat)
    (inputSize : nat * nat) (width height : Z) (ratio : Q)
    : option (list (Z * Z * Z * Z)) :=
  predictions ← _demoPostProcess Math_exp cpuData dims inputSize;
  boxes ← slice_columns 0 4 predictions;
  scores ← _postProcess_scores predictions;
  boxesXyxy ← _calcBbox boxes ratio;
  prediction ← _multiclassNms boxesXyxy scores (45 # 100) (1 # 10);
  Some (_parseToXyxy prediction width height).

End pipeline.

(** *** The input tensor of [_preProcessImage]

    The image is read and resized by Jimp; the loops below start from the
    bitmap of the resized image, four bytes (red, green, blue, alpha) for
    each pixel, row by row. *)

Definition inputSize : nat * nat := (416, 416)%nat.

(** [tf.fill([inputSize[1], inputSize[0], 3], 114, 'float32').arraySync()] *)
Definition grayBgImage (inputSize : nat * nat) : list (list (list Q)) :=
  replicate (snd inputSize) (replicate (fst inputSize) (replicate 3 114)).

(** The body of the inner loop, on [floatData] and [index].  A row or a
    pixel that [floatData] does not have makes the assignment throw; a byte
    that the bitmap does not have is [undefined], no number. *)
Definition copy_pixel (data : list Z) (h w : nat)
    (state : list (list (list Q)) * nat) : option (list (list (list Q)) * nat) :=
  let '(floatData, index) := state in
  row ← floatData !! h;
  pixel ← row !! w;
  v0 ← data !! (index + 2)%nat;
  v1 ← data !! (index + 1)%nat;
  v2 ← data !! (index + 0)%nat;
  let pixel := <[0%nat := inject_Z v0]> pixel in
  let pixel := <[1%nat := inject_Z v1]> pixel in
  let pixel := <[2%nat := inject_Z v2]> pixel in
  Some (<[h := <[w := pixel]> row]> floatData, (index + 4)%nat).

(** The two loops, [for (h ...) for (w ...)]. *)
Definition copy_pixels (data : list Z) (resizedWidth resizedHeight : nat)
    (floatData : list (list (list Q))) : option (list (list (list Q)) * nat) :=
  foldl (λ state h,
           foldl (λ state w, state ≫= copy_pixel data h w) state
                 (seq 0 resizedWidth))
        (Some (floatData, 0%nat)) (seq 0 resizedHeight).

(** [tensor.transpose([2, 0, 1]).dataSync()] on a tensor of shape
    [[height, width, 3]]: channel by channel, each channel row by row. *)
Definition transpose_dataSync (floatData : list (list (list Q))) : list Q :=
  concat ((λ channel : nat,
             concat ((λ row : list (list Q),
                        (λ pixel : list Q, nth channel pixel 0) <$> row)
                       <$> floatData))
            <$> seq 0 3).

(** [inputArray] of [_preProcessImage], from the bitmap [data] of the image
    resized to [resizedWidth] by [resizedHeight]. *)
Definition _preProcessImage_inputArray (data : list Z)
    (resizedWidth resizedHeight : nat) : option (list Q) :=
  '(floatData, _) ← copy_pixels data resizedWidth resizedHeight
                      (grayBgImage inputSize);
  Some (transpose_dataSync floatData).

End DetectionBase.

(** ** [OcrBase.js]: the tensors

    The methods of [OCRBase] that write and read tensors; they use the
    tensor primitives of the module above. *)

Module OcrTensors.

Import OcrBase DetectionBase.
Local Open Scope Q_scope.

(** [(data[i] / 255.0 - 0.5) / 0.5] *)
Definition normalise (byte : Z) : Q :=
  (inject_Z byte / 255 - (5 # 10)) / (5 # 10).

(** [floatData] of [_preProcessImage], from the bitmap [data] of the image
    resized and turned to greyscale by Jimp, four bytes for each pixel.
    The loop [for (let i = 0, j = 0; i < data.length; i += 4, j++)] reads
    [data[4 * j]] in turn [j]; a [Float32Array] starts as zeros, and a write
    past its end does nothing. *)
Definition _preProcessImage_floatData (data : list Z)
    (targetWidth targetHeight : nat) : list Q :=
  foldl (λ floatData j,
           match data !! (4 * j)%nat with
           | Some byte => <[j := normalise byte]> floatData
           | None => floatData
           end)
        (replicate (targetWidth * targetHeight) 0)
        (seq 0 ((length data + 3) / 4)).

(** [tf.argMax] along the last axis, on one row, as the kernel of the CPU
    backend computes it: [max] starts as the first element and [maxIndex] as
    0, and an element replaces them when it is greater ([value > max]). *)
Fixpoint argMax_from (max : Q) (maxIndex j : nat) (row : list Q) : nat :=
  match row with
  | [] => maxIndex
  | value :: row' =>
      if Qltb max value then argMax_from value j (S j) row'
      else argMax_from max maxIndex (S j) row'
  end.

Definition argMax (row : list Q) : nat :=
  match row with
  | [] => 0%nat
  | first :: _ => argMax_from first 0 0 row
  end.

(** [postProcess], for [dims] of three elements: [tf.reshape] throws when
    [cpuData] does not have as many elements as [dims] asks for. *)
Definition postProcess (this : OCRBase) (cpuData : list Q)
    (dims : nat * nat * nat) (charset : list string) : option string :=
  reshapedTensor ← reshape cpuData dims;
  let argmaxData :=
    concat ((λ batch : list (list Q), argMax <$> batch) <$> reshapedTensor) in
  Some (_parseToChar this argmaxData charset).

End OcrTensors.

(** ** The behaviour the specification describes

    The definitions of this module follow the wording of the specification
    and of the documentation comments, not the code; the theorems below
    compare the two. *)

Module Spec.

Import OcrBase DetectionBase.

(** *** CharsetRegistry *)

(** The characters from [first] to [last], as a set. *)
Definition char_range (first last : ascii) : gset string :=
  list_to_set
    ((λ n, String (ascii_of_nat n) EmptyString)
       <$> seq (nat_of_ascii first) (S (nat_of_ascii last - nat_of_ascii first))).

Definition digits : gset string := char_range "0" "9".
Definition lowercase : gset string := char_range "a" "z".
Definition uppercase : gset string := char_range "A" "Z".

(** The valid set documented for the codes 0 to 6. *)
Definition documented_valid (code : Z) : gset string :=
  match code with
  | 0%Z => digits
  | 1%Z => lowercase
  | 2%Z => uppercase
  | 3%Z => lowercase ∪ uppercase
  | 4%Z => lowercase ∪ digits
  | 5%Z => uppercase ∪ digits
  | 6%Z => lowercase ∪ uppercase ∪ digits
  | _ => ∅
  end.

(** The integer a number is, when it is one. *)
Definition integer_of (n : js_number) : option Z :=
  match n with
  | Finite q =>
      if (Z.pos (Qden (Qred q)) =? 1)%Z then Some (Qnum (Qred q)) else None
  | NaN => None
  | Infinity _ => None
  end.

(** What a range specification asks for: a new valid set, a new invalid set,
    or nothing that is supported. *)
Inductive range_kind : Type :=
  | NewValid (chars : gset string)
  | NewInvalid (chars : gset string)
  | Unsupported.

Definition range_kind_of (rangeSpec : js_value) : range_kind :=
  match rangeSpec with
  | JSString s => NewValid (new_Set s)
  | JSNumber n =>
      match integer_of n with
      | Some code =>
          if (0 <=? code)%Z && (code <=? 6)%Z then NewValid (documented_valid code)
          else if (code =? 7)%Z then NewInvalid (lowercase ∪ uppercase ∪ digits)
          else Unsupported
      | None => Unsupported
      end
  | _ => Unsupported
  end.

(** The admissibility rule of section 4.3: "reject if in invalid set; else
    accept if valid set is empty (unrestricted) or character is in valid
    set". *)
Definition admissible (validSet invalidSet : gset string) (c : string) : bool :=
  if decide (c ∈ invalidSet) then false
  else bool_decide (validSet = ∅ ∨ c ∈ validSet).

(** *** SequenceDecoder: the algorithm of section 4.4 *)

Fixpoint decode_from (validSet invalidSet : gset string) (charset : list string)
    (lastEmittedIndex : nat) (sequence : list nat) : string :=
  match sequence with
  | [] => ""
  | index :: sequence' =>
      if (index =? lastEmittedIndex)%nat
      then decode_from validSet invalidSet charset lastEmittedIndex sequence'
      else
        let rest := decode_from validSet invalidSet charset index sequence' in
        match charset !! index with
        | Some c =>
            if negb (index =? 0)%nat && admissible validSet invalidSet c
            then c +:+ rest
            else rest
        | None => rest
        end
  end.

Definition decode (validSet invalidSet : gset string) (charset : list string)
    (sequence : list nat) : string :=
  decode_from validSet invalidSet charset 0 sequence.

(** *** BoxDecoder: the score of section 4.5 *)

Local Open Scope Q_scope.

Definition objectness (anchor : list Q) : Q := nth 4 anchor 0.

Definition bestClassProbability (anchor : list Q) : Q :=
  match drop 5 anchor with
  | [] => 0
  | class0 :: classes => foldl Qmax class0 classes
  end.

(** The anchor rows of the first batch element of a raw output. *)
Definition anchors (cpuData : list Q) (dims : nat * nat * nat) : list (list Q) :=
  let '(_, w, c) := dims in chunks w c cpuData.

(** Section 4.5, step 2 rewrites [cx, cy, w, h]: a decoded row keeps its
    length and every attribute from the fifth on. *)
Definition decoded_from (output decoded : list Q) : Prop :=
  length decoded = length output ∧ drop 4 decoded = drop 4 output.

(** Two boxes with equal coordinates. *)
Definition same_box (a b : box) : Prop :=
  let '(ax1, ay1, ax2, ay2) := a in
  let '(bx1, by1, bx2, by2) := b in
  ax1 == bx1 ∧ ay1 == by1 ∧ ax2 == bx2 ∧ ay2 == by2.

(** *** NMSEngine: the algorithm of section 4.6 *)

Definition area (b : box) : Q :=
  let '(x1, y1, x2, y2) := b in (x2 - x1 + 1) * (y2 - y1 + 1).

Definition intersection (a b : box) : Q :=
  let '(ax1, ay1, ax2, ay2) := a in
  let '(bx1, by1, bx2, by2) := b in
  Qmax 0 (Qmin ax2 bx2 - Qmax ax1 bx1 + 1)
  * Qmax 0 (Qmin ay2 by2 - Qmax ay1 by1 + 1).

(** Intersection over union; undefined on an empty union. *)
Definition iou (a b : box) : option Q :=
  let inter := intersection a b in
  let union := area a + area b - inter in
  if Qeq_bool union 0 then None else Some (inter / union).

(** "IoU ≤ iouThreshold" for the boxes of two indices; an undefined IoU is
    not below the threshold. *)
Definition retained (boxes : list box) (iouThreshold : Q) (kept candidate : nat)
    : bool :=
  match boxes !! kept, boxes !! candidate with
  | Some a, Some b =>
      match iou a b with
      | Some v => Qle_bool v iouThreshold
      | None => false
      end
  | _, _ => false
  end.

(** "Repeatedly take the highest-remaining-score index, keep it, ... retain
    any candidate with IoU ≤ iouThreshold, recurse on the reduced candidate
    list."  The candidate list gets shorter at every step; [fuel] bounds
    the steps.  The test that retains a candidate is a parameter. *)
Fixpoint greedy (retains : nat → nat → bool) (fuel : nat)
    (candidates : list nat) : list nat :=
  match fuel, candidates with
  | S fuel', kept :: remaining =>
      kept :: greedy retains fuel'
                (filter (λ c, retains kept c = true) remaining)
  | _, _ => []
  end.

(** "Order all indices by descending score" is [argSort], itself taken from
    the specification. *)
Definition nms (boxes : list box) (scores : list Q) (iouThreshold : Q)
    : list nat :=
  let candidates := argSort scores in
  greedy (retained boxes iouThreshold) (length candidates) candidates.

(** No two boxes of a list overlap above the threshold. *)
Fixpoint no_overlap_above (iouThreshold : Q) (boxes : list box) : bool :=
  match boxes with
  | [] => true
  | b :: boxes' =>
      forallb (λ b',
                 match iou b b' with
                 | Some v => Qle_bool v iouThreshold
                 | None => true
                 end) boxes'
      && no_overlap_above iouThreshold boxes'
  end.

(** *** Clipping *)

(** A number truncated, not rounded, to an integer. *)
Definition truncate (x : Q) : Z :=
  if Qltb x 0 then Qceiling x else Qfloor x.

Definition clip (width height : Z) (b : box) : Z * Z * Z * Z :=
  let '(x1, y1, x2, y2) := b in
  (Z.max 0 (truncate x1), Z.max 0 (truncate y1),
   Z.min width (truncate x2), Z.min height (truncate y2)).

End Spec.

(** ** The overlap test of the loop of [_nms]

    What the tensor expressions of one turn of the loop compute for the kept
    index and one candidate (lemma [nms_next_filter]): the union is taken
    with the area of the box at index 0, [areas.slice(0, 1)], in the place
    of the area of the kept box. *)
Definition retained_by_loop (boxes : list DetectionBase.box) (nmsThr : Q)
    (kept candidate : nat) : bool :=
  match boxes !! 0%nat, boxes !! kept, boxes !! candidate with
  | Some first, Some a, Some b =>
      match DetectionBase.js_div
              (Spec.intersection a b)
              (Spec.area first + Spec.area b - Spec.intersection a b)%Q with
      | Some v => Qle_bool v nmsThr
      | None => false
      end
  | _, _, _ => false
  end.

(** ** Properties of [OcrBase.js] *)

Section ocr_properties.

Import OcrBase.

Implicit Types (this : OCRBase) (charset : list string) (c : string).

(** *** Strings and sets *)

Lemma append_cons (a : ascii) (s1 s2 : string) :
  String a s1 +:+ s2 = String a (s1 +:+ s2).
Proof. reflexivity. Qed.

Lemma append_assoc (s1 s2 s3 : string) : (s1 +:+ s2) +:+ s3 = s1 +:+ s2 +:+ s3.
Proof.
  induction s1 as [|a s1 IH]; [done |].
  by rewrite !append_cons, IH.
Qed.

Lemma append_empty_r (s : string) : s +:+ "" = s.
Proof.
  induction s as [|a s IH]; [done |].
  by rewrite append_cons, IH.
Qed.

Lemma join_app (xs ys : list (option string)) :
  join (xs ++ ys) = join xs +:+ join ys.
Proof.
  induction xs as [|x xs IH]; simpl; [done |].
  by rewrite IH, append_assoc.
Qed.

Lemma join_snoc (xs : list (option string)) (x : option string) :
  join (xs ++ [x]) = join xs +:+ default "" x.
Proof. rewrite join_app. simpl. by rewrite append_empty_r. Qed.

Lemma string_chars_app (s1 s2 : string) :
  string_chars (s1 +:+ s2) = string_chars s1 ++ string_chars s2.
Proof.
  unfold string_chars.
  induction s1 as [|a s1 IH]; [done |].
  rewrite append_cons. simpl. f_equal. exact IH.
Qed.

Lemma new_Set_app (s1 s2 : string) :
  new_Set (s1 +:+ s2) = new_Set s1 ∪ new_Set s2.
Proof. unfold new_Set. by rewrite string_chars_app, list_to_set_app_L. Qed.

Lemma elem_of_new_Set (s : string) c :
  c ∈ new_Set s ↔ ∃ a : ascii, In a (list_ascii_of_string s) ∧ c = String a EmptyString.
Proof.
  unfold new_Set, string_chars.
  rewrite elem_of_list_to_set, list_elem_of_fmap.
  split; intros (a & H1 & H2).
  - exists a. split; [by apply list_elem_of_In | done].
  - exists a. split; [done | by apply list_elem_of_In].
Qed.

Lemma new_Set_NUM_CASE : new_Set NUM_CASE = Spec.digits.
Proof. reflexivity. Qed.

Lemma new_Set_LOWWER_CASE : new_Set LOWWER_CASE = Spec.lowercase.
Proof. reflexivity. Qed.

Lemma new_Set_UPPER_CASE : new_Set UPPER_CASE = Spec.uppercase.
Proof. reflexivity. Qed.

(** *** The admissibility check *)

Lemma size_zero_empty (X : gset string) : (size X =? 0)%nat = bool_decide (X = ∅).
Proof.
  destruct (Nat.eqb_spec (size X) 0) as [H | H].
  - apply size_empty_iff in H. apply leibniz_equiv in H.
    symmetry. by apply bool_decide_eq_true_2.
  - symmetry. apply bool_decide_eq_false_2. intros ->. apply H, size_empty.
Qed.

Lemma _isValidChar_admissible this c :
  _isValidChar this (Some c)
  = Spec.admissible (_validCharSet this) (_inValidCharSet this) c.
Proof.
  unfold _isValidChar, Spec.admissible, has.
  rewrite size_zero_empty.
  destruct (decide (c ∈ _inValidCharSet this)) as [Hin | Hin].
  - by rewrite bool_decide_eq_true_2.
  - rewrite (bool_decide_eq_false_2 _ Hin).
    destruct (decide (_validCharSet this = ∅)) as [He | He].
    + rewrite (bool_decide_eq_true_2 _ He).
      symmetry. apply bool_decide_eq_true_2. by left.
    + rewrite (bool_decide_eq_false_2 _ He).
      apply bool_decide_ext. tauto.
Qed.

Lemma admissible_unrestricted c : Spec.admissible ∅ ∅ c = true.
Proof.
  unfold Spec.admissible. rewrite decide_False by set_solver.
  apply bool_decide_eq_true_2. by left.
Qed.

Lemma _isValidChar_unrestricted this c :
  _validCharSet this = ∅ → _inValidCharSet this = ∅ →
  _isValidChar this (Some c) = true.
Proof.
  intros Hv Hi. rewrite _isValidChar_admissible, Hv, Hi.
  apply admissible_unrestricted.
Qed.

(** *** The loop of [_parseToChar] against the scan of the specification *)

Lemma parse_step_at this charset (before after : list nat) (item : nat)
    (st : parse_state) :
  parse_step this (before ++ item :: after) charset st (length before)
  = if (item =? lastItem st)%nat then st
    else {| lastItem := item;
            result :=
              if negb (item =? 0)%nat && _isValidChar this (charset !! item)
              then result st ++ [charset !! item]
              else result st |}.
Proof.
  unfold parse_step.
  by rewrite list_lookup_middle.
Qed.

Lemma parse_loop_decode this charset (after before : list nat) (st : parse_state) :
  join (result (foldl (parse_step this (before ++ after) charset) st
                  (seq (length before) (length after))))
  = join (result st)
    +:+ Spec.decode_from (_validCharSet this) (_inValidCharSet this) charset
          (lastItem st) after.
Proof.
  revert before st.
  induction after as [|item after IH]; intros before st; simpl.
  - by rewrite append_empty_r.
  - rewrite parse_step_at.
    replace (before ++ item :: after) with ((before ++ [item]) ++ after)
      by (by rewrite <- app_assoc).
    replace (S (length before)) with (length (before ++ [item]))
      by (rewrite length_app; simpl; lia).
    rewrite IH.
    destruct (item =? lastItem st)%nat; [done |].
    simpl.
    destruct (charset !! item) as [c |] eqn:Hc.
    + rewrite _isValidChar_admissible.
      destruct (negb (item =? 0)%nat
                && Spec.admissible (_validCharSet this) (_inValidCharSet this) c);
        [| done].
      rewrite join_snoc. simpl. by rewrite append_assoc.
    + destruct (negb (item =? 0)%nat && _isValidChar this None); [| done].
      rewrite join_snoc. simpl. by rewrite append_empty_r.
Qed.

(** C4.  For every argmax sequence and charset array, [_parseToChar] returns
    the string of the scan of section 4.4: [lastEmittedIndex] starts at 0, a
    position equal to it is skipped, any other position replaces it and
    appends its character when the index is not zero and the character is
    admissible (not in the invalid set, and in the valid set unless that is
    empty). *)
Theorem _parseToChar_decode this (argmaxData : list nat) charset :
  _parseToChar this argmaxData charset
  = Spec.decode (_validCharSet this) (_inValidCharSet this) charset argmaxData.
Proof.
  unfold _parseToChar, Spec.decode.
  exact (parse_loop_decode this charset argmaxData [] {| lastItem := 0; result := [] |}).
Qed.

(** C2, as the code has it.  With no restriction set, the sequence
    [0,0,3,3,0,5,5,5,3] decodes to "cec" on every charset that has 'c' at
    index 3 and 'e' at index 5: the final 3 follows a 5, so it is emitted
    again. *)
Theorem _parseToChar_example_cec this charset :
  _validCharSet this = ∅ → _inValidCharSet this = ∅ →
  charset !! 3%nat = Some "c" → charset !! 5%nat = Some "e" →
  _parseToChar this [0; 0; 3; 3; 0; 5; 5; 5; 3]%nat charset = "cec".
Proof.
  intros Hv Hi H3 H5.
  rewrite _parseToChar_decode, Hv, Hi.
  unfold Spec.decode. simpl.
  rewrite H3, H5, !admissible_unrestricted.
  by destruct (charset !! 0%nat).
Qed.

Lemma _parseToChar_example_cec_witness :
  _parseToChar (constructor "model.onnx" "charsets.json")
    [0; 0; 3; 3; 0; 5; 5; 5; 3]%nat [""; "a"; "b"; "c"; "d"; "e"] = "cec".
Proof.
  apply (_parseToChar_example_cec (constructor "model.onnx" "charsets.json")
           [""; "a"; "b"; "c"; "d"; "e"]); reflexivity.
Defined.

(** C2, as the specification has it, fails: the decoder does not return
    "ce". *)
Lemma _parseToChar_example_not_ce :
  _parseToChar (constructor "model.onnx" "charsets.json")
    [0; 0; 3; 3; 0; 5; 5; 5; 3]%nat [""; "a"; "b"; "c"; "d"; "e"] = "cec"
  ∧ _parseToChar (constructor "model.onnx" "charsets.json")
      [0; 0; 3; 3; 0; 5; 5; 5; 3]%nat [""; "a"; "b"; "c"; "d"; "e"] ≠ "ce".
Proof. split; [reflexivity | discriminate]. Qed.

End ocr_properties.

(** ** Properties of [setRanges] *)

Section charset_properties.

Import OcrBase.

Implicit Types (this : OCRBase) (v : js_value) (n : js_number).

(** The two [case] labels of [switch (typeof(charsetRange))] select the
    constructors [setRanges] matches on. *)
Lemma typeof_number v : typeof v = "number" ↔ ∃ n, v = JSNumber n.
Proof. destruct v; split; intros H; try done; eauto; by destruct H. Qed.

Lemma typeof_string v : typeof v = "string" ↔ ∃ s, v = JSString s.
Proof. destruct v; split; intros H; try done; eauto; by destruct H. Qed.

Lemma Qred_inject_Z (k : Z) : Qred (inject_Z k) = inject_Z k.
Proof. apply Qred_iff. simpl. apply Z.gcd_1_r. Qed.

(** A [case] label matches exactly the number that is that integer. *)
Lemma strict_equals_integer_of n (k : Z) :
  strict_equals n k
  = match Spec.integer_of n with
    | Some code => (code =? k)%Z
    | None => false
    end.
Proof.
  destruct n as [q | |]; [| done | done].
  unfold strict_equals, Spec.integer_of.
  destruct (Z.eqb_spec (Z.pos (Qden (Qred q))) 1) as [Hden | Hden].
  - assert (Hq : q == inject_Z (Qnum (Qred q))).
    { rewrite <- (Qred_correct q) at 1.
      destruct (Qred q) as [a d]. simpl in *.
      injection Hden as ->. reflexivity. }
    destruct (Z.eqb_spec (Qnum (Qred q)) k) as [<- | Hne].
    + by apply Qeq_bool_iff.
    + apply not_true_is_false. intros Heq%Qeq_bool_iff.
      rewrite Hq in Heq. apply Hne.
      unfold Qeq in Heq. simpl in Heq. lia.
  - apply not_true_is_false. intros Heq%Qeq_bool_iff.
    apply Qred_complete in Heq. rewrite Qred_inject_Z in Heq.
    apply Hden. by rewrite Heq.
Qed.

Lemma new_Set_MIX_LOWWER_UPPER_CASE :
  new_Set MIX_LOWWER_UPPER_CASE = Spec.lowercase ∪ Spec.uppercase.
Proof.
  unfold MIX_LOWWER_UPPER_CASE.
  by rewrite new_Set_app, new_Set_LOWWER_CASE, new_Set_UPPER_CASE.
Qed.

Lemma new_Set_MIX_LOWWER_NUM_CASE :
  new_Set MIX_LOWWER_NUM_CASE = Spec.lowercase ∪ Spec.digits.
Proof.
  unfold MIX_LOWWER_NUM_CASE.
  by rewrite new_Set_app, new_Set_LOWWER_CASE, new_Set_NUM_CASE.
Qed.

Lemma new_Set_MIX_UPPER_NUM_CASE :
  new_Set MIX_UPPER_NUM_CASE = Spec.uppercase ∪ Spec.digits.
Proof.
  unfold MIX_UPPER_NUM_CASE.
  by rewrite new_Set_app, new_Set_UPPER_CASE, new_Set_NUM_CASE.
Qed.

Lemma new_Set_MIX_LOWER_UPPER_NUM_CASE :
  new_Set MIX_LOWER_UPPER_NUM_CASE
  = Spec.lowercase ∪ Spec.uppercase ∪ Spec.digits.
Proof.
  unfold MIX_LOWER_UPPER_NUM_CASE.
  rewrite !new_Set_app, new_Set_LOWWER_CASE, new_Set_UPPER_CASE, new_Set_NUM_CASE.
  by rewrite (assoc_L (∪)).
Qed.

Local Ltac range_case set_lemma :=
  cbn -[new_Set Spec.digits Spec.lowercase Spec.uppercase union];
  rewrite set_lemma; reflexivity.

(** [setRanges] does what the kind of its argument asks for, and nothing
    else. *)
Lemma setRanges_range_kind v this :
  setRanges v this
  = match Spec.range_kind_of v with
    | Spec.NewValid chars =>
        (Return tt,
         {| _ocrOnnxPath := _ocrOnnxPath this;
            _charsetPath := _charsetPath this;
            _validCharSet := chars;
            _inValidCharSet := _inValidCharSet this |})
    | Spec.NewInvalid chars =>
        (Return tt,
         {| _ocrOnnxPath := _ocrOnnxPath this;
            _charsetPath := _charsetPath this;
            _validCharSet := _validCharSet this;
            _inValidCharSet := chars |})
    | Spec.Unsupported => (Throw "Not support type", this)
    end.
Proof.
  destruct v as [n | s | | | | | | |]; try reflexivity.
  unfold setRanges, bind, setRanges_number, Spec.range_kind_of.
  rewrite !strict_equals_integer_of.
  destruct (Spec.integer_of n) as [code |]; [| reflexivity].
  unfold CHARSET_RANGE.NUM_CASE, CHARSET_RANGE.LOWWER_CASE,
    CHARSET_RANGE.UPPER_CASE, CHARSET_RANGE.MIX_LOWWER_UPPER_CASE,
    CHARSET_RANGE.MIX_LOWWER_NUM_CASE, CHARSET_RANGE.MIX_UPPER_NUM_CASE,
    CHARSET_RANGE.MIX_LOWWER_UPPER_NUM_CASE,
    CHARSET_RANGE.NO_LOWEER_UPPER_NUM_CASE.
  destruct (Z.eqb_spec code 0) as [-> | H0];
    [range_case new_Set_NUM_CASE |].
  destruct (Z.eqb_spec code 1) as [-> | H1];
    [range_case new_Set_LOWWER_CASE |].
  destruct (Z.eqb_spec code 2) as [-> | H2];
    [range_case new_Set_UPPER_CASE |].
  destruct (Z.eqb_spec code 3) as [-> | H3];
    [range_case new_Set_MIX_LOWWER_UPPER_CASE |].
  destruct (Z.eqb_spec code 4) as [-> | H4];
    [range_case new_Set_MIX_LOWWER_NUM_CASE |].
  destruct (Z.eqb_spec code 5) as [-> | H5];
    [range_case new_Set_MIX_UPPER_NUM_CASE |].
  destruct (Z.eqb_spec code 6) as [-> | H6];
    [range_case new_Set_MIX_LOWER_UPPER_NUM_CASE |].
  destruct (Z.eqb_spec code 7) as [-> | H7];
    [range_case new_Set_MIX_LOWER_UPPER_NUM_CASE |].
  replace ((0 <=? code)%Z && (code <=? 6)%Z) with false; [reflexivity |].
  symmetry. apply andb_false_iff.
  destruct (Z.leb_spec 0 code); [right | by left].
  apply Z.leb_gt. lia.
Qed.

Lemma integer_of_inject_Z (k : Z) :
  Spec.integer_of (Finite (inject_Z k)) = Some k.
Proof. unfold Spec.integer_of. by rewrite Qred_inject_Z. Qed.

(** C6, as the code has it.  On every instance, the codes 0 to 6 set the
    valid set to the documented characters (digits; lowercase; uppercase;
    lowercase and uppercase; lowercase and digits; uppercase and digits; all
    three), and a string sets it to exactly the characters of the string.
    On a new instance, code 7 leaves the valid set empty and sets the
    invalid set to lowercase, uppercase and digits; on every instance, code 7
    sets the invalid set so and leaves the valid set as it was. *)
Theorem setRanges_documented_sets :
  Forall (λ code : Z,
            ∀ this,
              fst (setRanges (JSNumber (Finite (inject_Z code))) this) = Return tt
              ∧ _validCharSet (snd (setRanges (JSNumber (Finite (inject_Z code))) this))
                = Spec.documented_valid code)
         [0; 1; 2; 3; 4; 5; 6]%Z
  ∧ (∀ onnxPath charsetPath : string,
       setRanges (JSNumber (Finite (inject_Z 7))) (constructor onnxPath charsetPath)
       = (Return tt,
          {| _ocrOnnxPath := onnxPath;
             _charsetPath := charsetPath;
             _validCharSet := ∅;
             _inValidCharSet := Spec.lowercase ∪ Spec.uppercase ∪ Spec.digits |}))
  ∧ (∀ this,
       fst (setRanges (JSNumber (Finite (inject_Z 7))) this) = Return tt
       ∧ _validCharSet (snd (setRanges (JSNumber (Finite (inject_Z 7))) this))
         = _validCharSet this
       ∧ _inValidCharSet (snd (setRanges (JSNumber (Finite (inject_Z 7))) this))
         = Spec.lowercase ∪ Spec.uppercase ∪ Spec.digits)
  ∧ (∀ (s : string) this,
       fst (setRanges (JSString s) this) = Return tt
       ∧ ∀ c : string,
           c ∈ _validCharSet (snd (setRanges (JSString s) this))
           ↔ ∃ a : ascii, In a (list_ascii_of_string s) ∧ c = String a EmptyString).
Proof.
  split; [| split; [| split]].
  - repeat constructor;
      rewrite setRanges_range_kind; unfold Spec.range_kind_of;
      rewrite integer_of_inject_Z; reflexivity.
  - intros onnxPath charsetPath.
    rewrite setRanges_range_kind. unfold Spec.range_kind_of.
    rewrite integer_of_inject_Z. reflexivity.
  - intros this.
    rewrite setRanges_range_kind. unfold Spec.range_kind_of.
    rewrite integer_of_inject_Z. repeat split.
  - intros s this. rewrite setRanges_range_kind. simpl.
    split; [reflexivity |]. intros c. apply elem_of_new_Set.
Qed.

(** C6, as the specification has it, fails: code 7 does not yield an empty
    valid set on every instance.  After code 0 the valid set holds the
    digits, and code 7 leaves it so. *)
Lemma setRanges_exclusion_keeps_valid_set :
  _validCharSet
    (snd (setRanges (JSNumber (Finite (inject_Z 7)))
            (snd (setRanges (JSNumber (Finite (inject_Z 0)))
                    (constructor "model.onnx" "charsets.json")))))
  = Spec.digits
  ∧ _validCharSet
      (snd (setRanges (JSNumber (Finite (inject_Z 7)))
              (snd (setRanges (JSNumber (Finite (inject_Z 0)))
                      (constructor "model.onnx" "charsets.json")))))
    ≠ ∅.
Proof.
  assert (Hvalid :
    _validCharSet
      (snd (setRanges (JSNumber (Finite (inject_Z 7)))
              (snd (setRanges (JSNumber (Finite (inject_Z 0)))
                      (constructor "model.onnx" "charsets.json")))))
    = Spec.digits).
  { rewrite !setRanges_range_kind. unfold Spec.range_kind_of.
    rewrite !integer_of_inject_Z. reflexivity. }
  split; [exact Hvalid |].
  rewrite Hvalid. apply (non_empty_inhabited_L "0"). by vm_compute.
Qed.

(** C8.  A number that is no integer from 0 to 7, and a value that is
    neither a number nor a string, make [setRanges] throw; the instance is
    as it was. *)
Theorem setRanges_unsupported v this :
  Spec.range_kind_of v = Spec.Unsupported →
  setRanges v this = (Throw "Not support type", this).
Proof. intros H. by rewrite setRanges_range_kind, H. Qed.

Lemma setRanges_unsupported_witness :
  setRanges (JSNumber (Finite (inject_Z 99))) (constructor "model.onnx" "charsets.json")
  = (Throw "Not support type", constructor "model.onnx" "charsets.json")
  ∧ setRanges (JSBoolean true) (constructor "model.onnx" "charsets.json")
    = (Throw "Not support type", constructor "model.onnx" "charsets.json").
Proof.
  split.
  - apply (setRanges_unsupported (JSNumber (Finite (inject_Z 99)))). reflexivity.
  - apply (setRanges_unsupported (JSBoolean true)). reflexivity.
Defined.

(** C10.  Every call of [setRanges] changes at most one of the two sets: a
    code from 0 to 6 and a string replace the valid set only, code 7
    replaces the invalid set only, and a call that throws changes nothing.
    So after code 7 the valid set is empty exactly when it was empty
    before. *)
Theorem setRanges_frame v this :
  match Spec.range_kind_of v with
  | Spec.NewValid chars =>
      setRanges v this
      = (Return tt,
         {| _ocrOnnxPath := _ocrOnnxPath this;
            _charsetPath := _charsetPath this;
            _validCharSet := chars;
            _inValidCharSet := _inValidCharSet this |})
  | Spec.NewInvalid chars =>
      setRanges v this
      = (Return tt,
         {| _ocrOnnxPath := _ocrOnnxPath this;
            _charsetPath := _charsetPath this;
            _validCharSet := _validCharSet this;
            _inValidCharSet := chars |})
  | Spec.Unsupported => setRanges v this = (Throw "Not support type", this)
  end
  ∧ (_validCharSet (snd (setRanges v this)) = _validCharSet this
     ∨ _inValidCharSet (snd (setRanges v this)) = _inValidCharSet this)
  ∧ (_validCharSet (snd (setRanges (JSNumber (Finite (inject_Z 7))) this)) = ∅
     ↔ _validCharSet this = ∅).
Proof.
  split; [| split].
  - rewrite setRanges_range_kind. by destruct (Spec.range_kind_of v).
  - rewrite setRanges_range_kind.
    destruct (Spec.range_kind_of v); simpl; auto.
  - rewrite setRanges_range_kind. unfold Spec.range_kind_of.
    rewrite integer_of_inject_Z. reflexivity.
Qed.

End charset_properties.

(** ** Properties of [DetectionBase.js] *)

Section clipping_properties.

Import DetectionBase.
Local Open Scope Z_scope.

Lemma Qltb_zero (n : Z) (d : positive) : Qltb (n # d) 0 = (n <? 0).
Proof.
  unfold Qltb, Qle_bool. simpl.
  rewrite Z.mul_1_r. by rewrite Z.ltb_antisym.
Qed.

Lemma Qltb_inject_Z (w n : Z) (d : positive) :
  Qltb (inject_Z w) (n # d) = (w * Z.pos d <? n).
Proof.
  unfold Qltb, Qle_bool. simpl.
  rewrite Z.mul_1_r. by rewrite Z.ltb_antisym.
Qed.

Lemma quot_negative (n : Z) (d : positive) :
  n < 0 → n ÷ Z.pos d = - (- n / Z.pos d).
Proof.
  intros Hn.
  rewrite <- (Z.opp_involutive n) at 1.
  rewrite Z.quot_opp_l by lia.
  rewrite Z.quot_div_nonneg by lia. reflexivity.
Qed.

(** In positional notation [parseInt] truncates: it is the ceiling of a
    negative number and the floor of any other. *)
Lemma parseInt_truncate (x : Q) :
  exponent_notation x = false → parseInt x = Spec.truncate x.
Proof.
  intros Hx. unfold parseInt. rewrite Hx. clear Hx.
  destruct x as [n d]. unfold Spec.truncate.
  rewrite Qltb_zero. simpl Qnum. simpl Qden.
  destruct (Z.ltb_spec n 0) as [Hn | Hn].
  - unfold Qceiling, Qfloor. simpl. by apply quot_negative.
  - unfold Qfloor. by apply Z.quot_div_nonneg.
Qed.

Lemma truncate_quot (n : Z) (d : positive) : Spec.truncate (n # d) = n ÷ Z.pos d.
Proof.
  unfold Spec.truncate. rewrite Qltb_zero.
  destruct (Z.ltb_spec n 0) as [Hn | Hn].
  - unfold Qceiling, Qfloor. simpl. symmetry. by apply quot_negative.
  - unfold Qfloor. symmetry. by apply Z.quot_div_nonneg.
Qed.

Lemma clamp_low (x : Q) :
  exponent_notation x = false →
  (if Qltb x 0 then 0 else parseInt x) = Z.max 0 (Spec.truncate x).
Proof.
  intros Hx. rewrite (parseInt_truncate x Hx).
  destruct x as [n d]. rewrite Qltb_zero, truncate_quot.
  destruct (Z.ltb_spec n 0) as [Hn | Hn].
  - rewrite quot_negative by done.
    assert (0 <= - n / Z.pos d) by (apply Z.div_pos; lia). lia.
  - assert (0 <= n ÷ Z.pos d) by (apply Z.quot_pos; lia). lia.
Qed.

Lemma clamp_high (bound : Z) (x : Q) :
  exponent_notation x = false →
  (if Qltb (inject_Z bound) x then bound else parseInt x)
  = Z.min bound (Spec.truncate x).
Proof.
  intros Hx. rewrite (parseInt_truncate x Hx).
  destruct x as [n d]. rewrite Qltb_inject_Z, truncate_quot.
  destruct (Z.ltb_spec (bound * Z.pos d) n) as [Hlt | Hge];
    destruct (Z.lt_ge_cases n 0) as [Hn | Hn].
  - rewrite quot_negative by done.
    assert (- n / Z.pos d <= - bound) by (apply Z.div_le_upper_bound; lia). lia.
  - rewrite Z.quot_div_nonneg by lia.
    assert (bound <= n / Z.pos d) by (apply Z.div_le_lower_bound; lia). lia.
  - rewrite quot_negative by done.
    assert (- bound <= - n / Z.pos d) by (apply Z.div_le_lower_bound; lia). lia.
  - rewrite Z.quot_div_nonneg by lia.
    assert (n / Z.pos d <= bound) by (apply Z.div_le_upper_bound; lia). lia.
Qed.

(** X24.  On boxes whose coordinates print in positional notation,
    [_parseToXyxy] is the clipping of section 4.6: [x1] and [y1] are clamped
    from below at 0 and [x2] and [y2] from above at the width and the
    height, of the coordinates truncated to integers. *)
Lemma _parseToXyxy_clips_positional (prediction : list box) (width height : Z) :
  Forall (λ '(x1, y1, x2, y2),
            exponent_notation x1 = false ∧ exponent_notation y1 = false
            ∧ exponent_notation x2 = false ∧ exponent_notation y2 = false)
         prediction →
  _parseToXyxy prediction width height = Spec.clip width height <$> prediction
  ∧ Forall (λ '(minX, minY, maxX, maxY),
              0 <= minX ∧ 0 <= minY ∧ maxX <= width ∧ maxY <= height)
           (_parseToXyxy prediction width height).
Proof.
  intros Hpos.
  assert (Hclip : _parseToXyxy prediction width height
                  = Spec.clip width height <$> prediction).
  { unfold _parseToXyxy. apply Forall_fmap_ext_1.
    eapply Forall_impl; [exact Hpos |].
    intros [[[x1 y1] x2] y2] (H1 & H2 & H3 & H4). unfold Spec.clip.
    by rewrite !clamp_low, !clamp_high. }
  split; [exact Hclip |].
  rewrite Hclip. apply Forall_fmap, Forall_forall.
  intros [[[x1 y1] x2] y2] _. simpl. lia.
Qed.

(** *** Exponent notation *)

Lemma first_digit_below_one_range (fuel : nat) (n d : Z) :
  0 < n → n < d → d <= n * 10 ^ Z.of_nat fuel →
  1 <= first_digit_below_one fuel n d <= 9.
Proof.
  revert n. induction fuel as [|fuel IH]; intros n Hn Hd Hfuel.
  - simpl in Hfuel. lia.
  - cbn [first_digit_below_one].
    destruct (Z.leb_spec d (10 * n)) as [Hle | Hgt].
    + split.
      * apply Z.div_le_lower_bound; lia.
      * assert (10 * n / d < 10) by (apply Z.div_lt_upper_bound; lia). lia.
    + apply IH; [lia | lia |].
      rewrite Nat2Z.inj_succ, Z.pow_succ_r in Hfuel by lia. lia.
Qed.

Lemma first_digit_from_one_range (fuel : nat) (n d : Z) :
  0 < d → d <= n → n < d * 10 ^ Z.of_nat fuel →
  1 <= first_digit_from_one fuel n d <= 9.
Proof.
  revert d. induction fuel as [|fuel IH]; intros d Hd Hn Hfuel.
  - simpl in Hfuel. lia.
  - cbn [first_digit_from_one].
    destruct (Z.ltb_spec n (10 * d)) as [Hlt | Hge].
    + split.
      * apply Z.div_le_lower_bound; lia.
      * assert (n / d < 10) by (apply Z.div_lt_upper_bound; lia). lia.
    + apply IH; [lia | lia |].
      rewrite Nat2Z.inj_succ, Z.pow_succ_r in Hfuel by lia. lia.
Qed.

Lemma below_power_of_ten (m : Z) : 0 < m → m < 10 ^ Z.of_nat (S (Z.to_nat (Z.log2 m))).
Proof.
  intros Hm.
  pose proof (Z.log2_nonneg m) as Hlog.
  rewrite Nat2Z.inj_succ, Z2Nat.id by done.
  destruct (Z.log2_spec m Hm) as [_ Hlt].
  eapply Z.lt_le_trans; [exact Hlt |].
  apply Z.pow_le_mono_l. lia.
Qed.

(** The fuel of [first_digit] is enough: the digit is a digit from 1 to 9. *)
Lemma first_digit_range (n d : Z) : 0 < n → 0 < d → 1 <= first_digit n d <= 9.
Proof.
  intros Hn Hd. unfold first_digit.
  destruct (Z.ltb_spec n d) as [Hlt | Hge].
  - apply first_digit_below_one_range; [done | done |].
    pose proof (below_power_of_ten d Hd). nia.
  - apply first_digit_from_one_range; [done | done |].
    pose proof (below_power_of_ten n Hn). nia.
Qed.

(** In exponent notation [parseInt] returns a digit from 1 to 9 with the
    sign of the number, whatever its magnitude. *)
Lemma parseInt_exponent_notation (x : Q) :
  exponent_notation x = true → 1 <= Z.abs (parseInt x) <= 9.
Proof.
  intros Hx. unfold parseInt. rewrite Hx.
  apply andb_true_iff in Hx as [Hnz _].
  destruct x as [n d]. simpl Qnum. simpl Qden.
  assert (Hn : n ≠ 0).
  { intros ->. apply negb_true_iff in Hnz. by vm_compute in Hnz. }
  assert (Hdigit : 1 <= first_digit (Z.abs n) (Z.pos d) <= 9)
    by (apply first_digit_range; lia).
  assert (Hsgn : Z.abs (Z.sgn n) = 1) by lia.
  rewrite Z.abs_mul, Hsgn, Z.mul_1_l. lia.
Qed.

(** C7 on the code.  A coordinate between 0 and [1e-6] prints in exponent
    notation, and [parseInt] returns its first digit: the box
    [5e-7, 5e-7, 10, 10] becomes [5, 5, 10, 10], and with [2^-21]
    (["4.76837158203125e-7"]) for [5e-7] it becomes [4, 4, 10, 10], where
    the clipping of the specification truncates both to [0, 0, 10, 10].
    The example of the specification holds. *)
Theorem _parseToXyxy_exponent_notation :
  _parseToXyxy [(5 # 10000000, 5 # 10000000, 10, 10)%Q] 416 416
  = [(5, 5, 10, 10)]
  ∧ Spec.clip 416 416 (5 # 10000000, 5 # 10000000, 10, 10)%Q = (0, 0, 10, 10)
  ∧ _parseToXyxy [(1 # 2097152, 1 # 2097152, 10, 10)%Q] 416 416
    = [(4, 4, 10, 10)]
  ∧ Spec.clip 416 416 (1 # 2097152, 1 # 2097152, 10, 10)%Q = (0, 0, 10, 10)
  ∧ _parseToXyxy [((-5)%Q, (-5)%Q, 500%Q, 500%Q)] 416 416 = [(0, 0, 416, 416)].
Proof. repeat split; by vm_compute. Qed.

End clipping_properties.

Section box_decoding_properties.

Import DetectionBase.
Local Open Scope Q_scope.

(** Section 4.5, step 4: the corner form of a center-form box, divided by
    [ratio]. *)
Lemma _calcBbox_corner_form (cx cy w h ratio : Q) :
  Qeq_bool ratio 0 = false →
  _calcBbox [[cx; cy; w; h]] ratio
  = Some [((cx - w / 2) / ratio, (cy - h / 2) / ratio,
           (cx + w / 2) / ratio, (cy + h / 2) / ratio)].
Proof. intros H. unfold _calcBbox. by rewrite H. Qed.

(** C3, as the code has it.  For [ratio = 0.5] the center-form box
    (cx=100, cy=100, w=40, h=20) has the corners (80, 90, 120, 110) before
    the division by [ratio], and [_calcBbox] returns (160, 180, 240, 220). *)
Theorem _calcBbox_example :
  ∃ before after : box,
    corners [100; 100; 40; 20] = Some before
    ∧ Spec.same_box before (80, 90, 120, 110)
    ∧ _calcBbox [[100; 100; 40; 20]] (1 # 2) = Some [after]
    ∧ Spec.same_box after (160, 180, 240, 220).
Proof.
  eexists _, _. split; [reflexivity |]. split; [by vm_compute |].
  split; [reflexivity |]. by vm_compute.
Qed.

(** C3, as the specification has it, fails: (160, 180, 240, 220) is the
    returned box, not the box before the division, and the returned box is
    not (320, 360, 480, 440). *)
Lemma _calcBbox_example_not_doubled :
  ∃ before after : box,
    corners [100; 100; 40; 20] = Some before
    ∧ ¬ Spec.same_box before (160, 180, 240, 220)
    ∧ _calcBbox [[100; 100; 40; 20]] (1 # 2) = Some [after]
    ∧ ¬ Spec.same_box after (320, 360, 480, 440).
Proof.
  eexists _, _. split; [reflexivity |].
  split; [by intros [H _]; vm_compute in H |].
  split; [reflexivity |]. by intros [H _]; vm_compute in H.
Qed.

End box_decoding_properties.

Section score_properties.

Import DetectionBase.
Local Open Scope Q_scope.

Variable Math_exp : Q → Q.

(** *** The shape of a reshaped output *)

Lemma length_chunks {A} (count size : nat) (data : list A) :
  length (chunks count size data) = count.
Proof.
  revert data. induction count as [|count IH]; intros data; simpl; [done |].
  by rewrite IH.
Qed.

Lemma chunks_row_length {A} (count size : nat) (data : list A) :
  (count * size ≤ length data)%nat →
  Forall (λ row, length row = size) (chunks count size data).
Proof.
  revert data. induction count as [|count IH]; intros data Hlen; simpl.
  - constructor.
  - constructor.
    + rewrite length_take. simpl in Hlen. lia.
    + apply IH. rewrite length_drop. simpl in Hlen. lia.
Qed.

Lemma chunks_take {A} (count size : nat) (data : list A) :
  chunks count size (take (count * size) data) = chunks count size data.
Proof.
  revert data. induction count as [|count IH]; intros data; simpl; [done |].
  f_equal.
  - rewrite take_take. f_equal. lia.
  - rewrite <- (IH (drop size data)). f_equal.
    by rewrite <- take_drop_commute.
Qed.

(** With at least one batch element, the first of them holds the anchor
    rows. *)
Lemma reshape_head (cpuData : list Q) (h w c : nat) :
  length cpuData = (h * w * c)%nat → (1 ≤ h)%nat →
  ∃ outputs,
    reshape cpuData (h, w, c) = Some (Spec.anchors cpuData (h, w, c) :: outputs)
    ∧ Forall (λ batch, length batch = w ∧ Forall (λ row, length row = c) batch)
             (Spec.anchors cpuData (h, w, c) :: outputs).
Proof.
  intros Hlen Hh. unfold reshape, Spec.anchors.
  rewrite (proj2 (Nat.eqb_eq _ _) Hlen).
  destruct h as [|h]; [lia |]. simpl chunks. rewrite fmap_cons.
  rewrite chunks_take.
  eexists. split; [reflexivity |].
  rewrite <- chunks_take, <- fmap_cons.
  change (take (w * c) cpuData :: chunks h (w * c) (drop (w * c) cpuData))
    with (chunks (S h) (w * c) cpuData).
  apply Forall_fmap, Forall_forall. intros batch Hbatch. simpl.
  assert (Hb : length batch = (w * c)%nat).
  { eapply (proj1 (Forall_forall _ _) (chunks_row_length (S h) (w * c) cpuData _)), Hbatch. }
  split; [apply length_chunks |].
  apply chunks_row_length. lia.
  Unshelve. lia.
Qed.

(** A tensor with an element is its nested arrays. *)
Lemma arraySync_elements (cpuData : list Q) (h w c : nat) :
  length cpuData = (h * w * c)%nat → (1 ≤ h)%nat → (1 ≤ w)%nat → (1 ≤ c)%nat →
  arraySync (chunks w c <$> chunks h (w * c) cpuData)
  = chunks w c <$> chunks h (w * c) cpuData.
Proof.
  intros Hlen Hh Hw Hc.
  destruct h as [|h]; [lia |]. destruct w as [|w]; [lia |].
  destruct c as [|c]; [lia |].
  destruct cpuData as [|x cpuData]; [simpl in Hlen; lia |].
  reflexivity.
Qed.

Lemma arraySync_cases (t : list (list (list Q))) :
  arraySync t = [] ∨ arraySync t = t.
Proof. unfold arraySync. destruct (concat (concat t)); auto. Qed.

(** *** What the grid decoding changes *)

Lemma decode_anchor_decoded (output : list Q) (grid : nat * nat) (stride : nat) :
  (4 ≤ length output)%nat →
  ∃ decoded,
    decode_anchor Math_exp output grid stride = Some decoded
    ∧ Spec.decoded_from output decoded.
Proof.
  intros Hlen.
  destruct output as [|o0 [|o1 [|o2 [|o3 rest]]]]; simpl in Hlen; try lia.
  eexists. split; [reflexivity |]. by split.
Qed.

Lemma length_flatExpandedStrides (imageSize : nat * nat) :
  length (flatExpandedStrides imageSize) = length (flatGrids imageSize).
Proof.
  unfold flatExpandedStrides, flatGrids, strides. simpl.
  by rewrite !length_app, !length_replicate.
Qed.

Lemma decode_anchors_from (imageSize : nat * nat) (anchors : list (list Q))
    (offset : nat) :
  Forall (λ row, 4 ≤ length row)%nat anchors →
  (offset + length anchors ≤ length (flatGrids imageSize))%nat →
  ∃ decoded,
    mapM (λ '(j, output),
            grid ← flatGrids imageSize !! j;
            expandedStride ← flatExpandedStrides imageSize !! j;
            decode_anchor Math_exp output grid expandedStride)
         (imap (λ j output, (offset + j, output)%nat) anchors) = Some decoded
    ∧ Forall2 Spec.decoded_from anchors decoded.
Proof.
  revert offset.
  induction anchors as [|output anchors IH]; intros offset Hrows Hcells.
  - exists []. split; [reflexivity | constructor].
  - apply Forall_cons in Hrows as [Hrow Hrows]. simpl in Hcells.
    destruct (lookup_lt_is_Some_2 (flatGrids imageSize) offset) as [grid Hgrid];
      [lia |].
    destruct (lookup_lt_is_Some_2 (flatExpandedStrides imageSize) offset)
      as [stride Hstride]; [rewrite length_flatExpandedStrides; lia |].
    destruct (decode_anchor_decoded output grid stride Hrow) as (d & Hd & Hfrom).
    destruct (IH (S offset) Hrows) as (ds & Hds & Hall); [lia |].
    exists (d :: ds). split; [| by constructor].
    rewrite imap_cons. cbn [mapM].
    rewrite Nat.add_0_r, Hgrid. cbn [mbind option_bind].
    rewrite Hstride. cbn [mbind option_bind]. rewrite Hd. cbn [mbind option_bind].
    erewrite imap_ext; [rewrite Hds; reflexivity |].
    intros j x _. simpl. f_equal. lia.
Qed.

Lemma decode_anchors_decoded (imageSize : nat * nat) (anchors : list (list Q)) :
  Forall (λ row, 4 ≤ length row)%nat anchors →
  (length anchors ≤ length (flatGrids imageSize))%nat →
  ∃ decoded,
    decode_anchors Math_exp imageSize anchors = Some decoded
    ∧ Forall2 Spec.decoded_from anchors decoded.
Proof.
  intros Hrows Hcells.
  exact (decode_anchors_from imageSize anchors 0 Hrows Hcells).
Qed.

(** [_demoPostProcess] returns, and changes the first four attributes of
    every anchor only. *)
Lemma _demoPostProcess_decoded (cpuData : list Q) (h w c : nat)
    (imageSize : nat * nat) :
  length cpuData = (h * w * c)%nat → (1 ≤ h)%nat →
  (w ≤ length (flatGrids imageSize))%nat → (4 ≤ c)%nat → (1 ≤ w)%nat →
  ∃ predictions,
    _demoPostProcess Math_exp cpuData (h, w, c) imageSize = Some predictions
    ∧ Forall2 Spec.decoded_from (Spec.anchors cpuData (h, w, c)) predictions.
Proof.
  intros Hlen Hh Hw Hc Hanchor.
  destruct (reshape_head cpuData h w c Hlen Hh) as (outputs & Hreshape & Hshape).
  assert (Harrays : arraySync (Spec.anchors cpuData (h, w, c) :: outputs)
                    = Spec.anchors cpuData (h, w, c) :: outputs).
  { pose proof Hreshape as Hsame. unfold reshape in Hsame.
    rewrite (proj2 (Nat.eqb_eq _ _) Hlen) in Hsame.
    injection Hsame as Hsame. unfold Spec.anchors. rewrite <- Hsame.
    apply arraySync_elements; lia. }
  unfold _demoPostProcess. rewrite Hreshape. cbn [mbind option_bind].
  cbv zeta. rewrite Harrays.
  assert (Hall : ∀ batch, batch ∈ Spec.anchors cpuData (h, w, c) :: outputs →
                   ∃ decoded, decode_anchors Math_exp imageSize batch = Some decoded
                              ∧ Forall2 Spec.decoded_from batch decoded).
  { intros batch Hbatch.
    destruct (proj1 (Forall_forall _ _) Hshape batch Hbatch) as [Hbw Hbc].
    apply decode_anchors_decoded; [| lia].
    eapply Forall_impl; [exact Hbc |]. simpl. lia. }
  destruct (Hall _ (list_elem_of_here _ _)) as (first & Hfirst & Hfrom).
  assert (Hrest : is_Some (mapM (decode_anchors Math_exp imageSize) outputs)).
  { apply mapM_is_Some, Forall_forall. intros batch Hbatch.
    destruct (Hall batch) as (d & Hd & _); [by apply list_elem_of_further |].
    simpl. by rewrite Hd. }
  destruct Hrest as [rest Hrest].
  exists first. split; [| exact Hfrom].
  cbn [mapM]. rewrite Hfirst. cbn [mbind option_bind].
  rewrite Hrest. reflexivity.
Qed.

(** *** The scores *)

Lemma slice_one_column (k : nat) (rows : list (list Q)) (c : nat) :
  rows ≠ [] → Forall (λ row, length row = c) rows → (k < c)%nat →
  slice_columns k 1 rows = Some ((λ row, [nth k row 0]) <$> rows).
Proof.
  intros Hne Hrows Hk. unfold slice_columns.
  destruct rows as [|row rows]; [done |].
  pose proof (Forall_inv Hrows) as Hrow. simpl in Hrow.
  rewrite (proj2 (Nat.leb_le _ _)) by lia.
  f_equal. apply Forall_fmap_ext_1.
  eapply Forall_impl; [exact Hrows |]. simpl. intros r Hr.
  destruct (drop k r) as [|x rest] eqn:Hdrop.
  - apply (f_equal length) in Hdrop. rewrite length_drop in Hdrop. simpl in Hdrop. lia.
  - simpl. rewrite take_0. f_equal.
    rewrite <- (take_drop k r) at 1. rewrite Hdrop.
    rewrite app_nth2; rewrite length_take; [| lia].
    by replace (k - k `min` length r)%nat with 0%nat by lia.
Qed.

Lemma _postProcess_scores_products (predictions : list (list Q)) (c : nat) :
  predictions ≠ [] → Forall (λ row, length row = c) predictions → (6 ≤ c)%nat →
  _postProcess_scores predictions
  = Some ((λ row, [nth 4 row 0 * nth 5 row 0]) <$> predictions).
Proof.
  intros Hne Hrows Hc. unfold _postProcess_scores.
  rewrite (slice_one_column 4 predictions c), (slice_one_column 5 predictions c)
    by (done || lia).
  cbn [mbind option_bind]. f_equal.
  rewrite zip_with_fmap_l, zip_with_fmap_r, zip_with_diag. reflexivity.
Qed.

Lemma decoded_nth (output decoded : list Q) (k : nat) :
  Spec.decoded_from output decoded → (4 ≤ k)%nat → nth k decoded 0 = nth k output 0.
Proof.
  intros [_ Hdrop] Hk.
  rewrite !nth_lookup.
  replace k with (4 + (k - 4))%nat by lia.
  rewrite <- !lookup_drop. by rewrite Hdrop.
Qed.

Lemma bestClassProbability_single (anchor : list Q) :
  length anchor = 6%nat → Spec.bestClassProbability anchor = nth 5 anchor 0.
Proof.
  intros Hlen.
  destruct anchor as [|a0 [|a1 [|a2 [|a3 [|a4 [|a5 [|a6 rest]]]]]]];
    simpl in Hlen; try lia.
  reflexivity.
Qed.

(** C1, as the code has it.  For every output tensor of [h ≥ 1] batch
    elements, [w ≥ 1] anchors within the grid and [c ≥ 6] attributes,
    [_postProcess] hands to the suppression, for each anchor, the product
    of its objectness (attribute 4) and its first class probability
    (attribute 5).  With exactly one class column that probability is the
    best one. *)
Theorem _postProcess_scores_first_class (cpuData : list Q) (h w c : nat)
    (inputSize : nat * nat) :
  length cpuData = (h * w * c)%nat → (1 ≤ h)%nat → (1 ≤ w)%nat →
  (w ≤ length (flatGrids inputSize))%nat → (6 ≤ c)%nat →
  (_demoPostProcess Math_exp cpuData (h, w, c) inputSize ≫= _postProcess_scores)
  = Some ((λ anchor, [Spec.objectness anchor * nth 5 anchor 0])
            <$> Spec.anchors cpuData (h, w, c))
  ∧ (c = 6%nat →
     (_demoPostProcess Math_exp cpuData (h, w, c) inputSize ≫= _postProcess_scores)
     = Some ((λ anchor, [Spec.objectness anchor * Spec.bestClassProbability anchor])
               <$> Spec.anchors cpuData (h, w, c))).
Proof.
  intros Hlen Hh Hw Hcells Hc.
  destruct (_demoPostProcess_decoded cpuData h w c inputSize Hlen Hh Hcells)
    as (predictions & Hpred & Hfrom); [lia | lia |].
  assert (Hanchors : length (Spec.anchors cpuData (h, w, c)) = w
                     ∧ Forall (λ row, length row = c) (Spec.anchors cpuData (h, w, c))).
  { destruct (reshape_head cpuData h w c Hlen Hh) as (outputs & _ & Hshape).
    exact (Forall_inv Hshape). }
  destruct Hanchors as [Hcount Hrows].
  assert (Hprows : Forall (λ row, length row = c) predictions).
  { apply Forall_forall. intros row Hrow.
    apply list_elem_of_lookup in Hrow as [i Hi].
    destruct (Forall2_lookup_r _ _ _ _ _ Hfrom Hi) as (raw & Hraw & [Hl _]).
    rewrite Hl.
    exact (proj1 (Forall_forall _ _) Hrows raw (list_elem_of_lookup_2 _ _ _ Hraw)). }
  assert (Hne : predictions ≠ []).
  { intros ->. apply Forall2_length in Hfrom. rewrite Hcount in Hfrom.
    simpl in Hfrom. lia. }
  assert (Hscores :
    (_demoPostProcess Math_exp cpuData (h, w, c) inputSize ≫= _postProcess_scores)
    = Some ((λ anchor, [Spec.objectness anchor * nth 5 anchor 0])
              <$> Spec.anchors cpuData (h, w, c))).
  { rewrite Hpred. cbn [mbind option_bind].
    rewrite (_postProcess_scores_products predictions c Hne Hprows Hc).
    f_equal. symmetry. apply list_eq_Forall2, Forall2_fmap.
    eapply Forall2_impl; [exact Hfrom |].
    intros raw dec Hdec. simpl. unfold Spec.objectness.
    by rewrite !(decoded_nth raw dec) by (done || lia). }
  split; [exact Hscores |].
  intros ->. rewrite Hscores. f_equal.
  apply Forall_fmap_ext_1.
  eapply Forall_impl; [exact Hrows |]. simpl. intros anchor Hrow.
  by rewrite bestClassProbability_single.
Qed.

End score_properties.

Section score_examples.

Import DetectionBase.
Local Open Scope Q_scope.

Lemma flatGrids_416 : length (flatGrids (416, 416)%nat) = 3549%nat.
Proof. by vm_compute. Qed.

Lemma _postProcess_scores_first_class_witness :
  (_demoPostProcess (λ x, 1 + x)
     [1 # 2; 1 # 2; 0; 0; 1; 3 # 4;
      1 # 2; 1 # 2; 0; 0; 1 # 2; 1 # 2] (1, 2, 6)%nat (416, 416)%nat
   ≫= _postProcess_scores)
  = Some [[1 * (3 # 4)]; [(1 # 2) * (1 # 2)]]
  ∧ (_demoPostProcess (λ x, 1 + x)
       [1 # 2; 1 # 2; 0; 0; 1; 3 # 4;
        1 # 2; 1 # 2; 0; 0; 1 # 2; 1 # 2] (1, 2, 6)%nat (416, 416)%nat
     ≫= _postProcess_scores)
    = Some ((λ anchor, [Spec.objectness anchor * Spec.bestClassProbability anchor])
              <$> Spec.anchors
                    [1 # 2; 1 # 2; 0; 0; 1; 3 # 4;
                     1 # 2; 1 # 2; 0; 0; 1 # 2; 1 # 2] (1, 2, 6)%nat).
Proof.
  destruct (_postProcess_scores_first_class (λ x, 1 + x)
              [1 # 2; 1 # 2; 0; 0; 1; 3 # 4;
               1 # 2; 1 # 2; 0; 0; 1 # 2; 1 # 2] 1 2 6 (416, 416)%nat)
    as [H1 H2];
    [reflexivity | lia | lia | rewrite flatGrids_416; lia | lia |].
  split; [exact H1 | exact (H2 eq_refl)].
Defined.

(** C1, as the specification has it, fails on an output with two class
    columns: the score is the product with the first class probability
    (1/4), not with the best one (1/2). *)
Lemma _postProcess_scores_not_best_class :
  (∀ Math_exp : Q → Q,
     (_demoPostProcess Math_exp [0; 0; 0; 0; 1; 1 # 4; 1 # 2] (1, 1, 7)%nat
        (416, 416)%nat
      ≫= _postProcess_scores)
     = Some [[1 * (1 # 4)]])
  ∧ Spec.anchors [0; 0; 0; 0; 1; 1 # 4; 1 # 2] (1, 1, 7)%nat
    = [[0; 0; 0; 0; 1; 1 # 4; 1 # 2]]
  ∧ Spec.objectness [0; 0; 0; 0; 1; 1 # 4; 1 # 2] = 1
  ∧ Spec.bestClassProbability [0; 0; 0; 0; 1; 1 # 4; 1 # 2] = 1 # 2
  ∧ ¬ (1 * (1 # 4) == 1 * (1 # 2)).
Proof.
  split; [| repeat split; try reflexivity; by intros H; vm_compute in H].
  intros Math_exp. reflexivity.
Qed.

End score_examples.

(** ** The loop of [_nms] *)

Section suppression_loop.

Import DetectionBase.
Local Open Scope Q_scope.

Implicit Types (boxes selected : list box) (order rest : list nat).

(** *** Broadcasting on the shapes of [_nms] *)

Lemma broadcast_scalar_l {A} (f : Q → Q → A) (x : Q) (b : list Q) :
  broadcast f [x] b = f x <$> b.
Proof. by destruct b. Qed.

Lemma broadcast_scalar_r {A} (f : Q → Q → A) (a : list Q) (y : Q) :
  broadcast f a [y] = (λ x, f x y) <$> a.
Proof. by destruct a as [|x [|x' a]]. Qed.

Lemma broadcast_zip {A} (f : Q → Q → A) (a b : list Q) :
  length a = length b → broadcast f a b = zip_with f a b.
Proof.
  destruct a as [|x [|x' a]], b as [|y [|y' b]]; simpl; intros Hlen;
    done || lia.
Qed.

Lemma broadcast_fmap {A B} (f : Q → Q → A) (g h : B → Q) (l : list B) :
  broadcast f (g <$> l) (h <$> l) = (λ b, f (g b) (h b)) <$> l.
Proof.
  rewrite broadcast_zip by (by rewrite !length_fmap).
  by rewrite zip_with_fmap_l, zip_with_fmap_r, zip_with_diag.
Qed.

Lemma broadcast_fmap_scalar_l {A B} (f : Q → Q → A) (x : Q) (h : B → Q)
    (l : list B) :
  broadcast f [x] (h <$> l) = (λ b, f x (h b)) <$> l.
Proof. by rewrite broadcast_scalar_l, <- list_fmap_compose. Qed.

Lemma broadcast_fmap_scalar_r {A B} (f : Q → Q → A) (g : B → Q) (y : Q)
    (l : list B) :
  broadcast f (g <$> l) [y] = (λ b, f (g b) y) <$> l.
Proof. by rewrite broadcast_scalar_r, <- list_fmap_compose. Qed.

(** *** Gathering boxes *)

Lemma in_range_selected boxes order :
  Forall (λ j, j < length boxes)%nat order →
  ∃ selected, Forall2 (λ j b, boxes !! j = Some b) order selected.
Proof.
  induction 1 as [|j order Hj _ [selected IH]].
  - exists []. constructor.
  - destruct (lookup_lt_is_Some_2 boxes j Hj) as [b Hb].
    exists (b :: selected). by constructor.
Qed.

Lemma identity_selected boxes :
  Forall2 (λ j b, boxes !! j = Some b) (seq 0 (length boxes)) boxes.
Proof.
  apply Forall2_same_length_lookup_2; [by rewrite length_seq |].
  intros i j b Hj Hb. apply lookup_seq in Hj as [-> _]. exact Hb.
Qed.

Lemma _getCurrentBox_selected boxes (orders : option (list nat)) selected :
  Forall2 (λ j b, boxes !! j = Some b)
          (default (seq 0 (length boxes)) orders) selected →
  _getCurrentBox boxes orders
  = Some ((λ '(x1, _, _, _), x1) <$> selected,
          (λ '(_, y1, _, _), y1) <$> selected,
          (λ '(_, _, x2, _), x2) <$> selected,
          (λ '(_, _, _, y2), y2) <$> selected).
Proof.
  intros Hsel. unfold _getCurrentBox. cbv zeta.
  by rewrite (mapM_Some_2 _ _ _ Hsel).
Qed.

Lemma tf_gather_areas boxes order selected :
  Forall2 (λ j b, boxes !! j = Some b) order selected →
  tf_gather (Spec.area <$> boxes) order = Some (Spec.area <$> selected).
Proof.
  intros Hsel. apply mapM_Some_2, Forall2_fmap_r.
  eapply Forall2_impl; [exact Hsel |].
  intros j b Hb. simpl. by rewrite list_lookup_fmap, Hb.
Qed.

(** The [areas] of [_nms] are the inclusive-pixel areas of the boxes. *)
Lemma areas_of_boxes boxes :
  tf_mul (tf_add (tf_sub ((λ '(_, _, x2, _), x2) <$> boxes)
                         ((λ '(x1, _, _, _), x1) <$> boxes)) [1])
         (tf_add (tf_sub ((λ '(_, _, _, y2), y2) <$> boxes)
                         ((λ '(_, y1, _, _), y1) <$> boxes)) [1])
  = Spec.area <$> boxes.
Proof.
  unfold tf_mul, tf_add, tf_sub.
  rewrite !broadcast_fmap, !broadcast_fmap_scalar_r, broadcast_fmap.
  apply list_fmap_ext. by intros _ [[[x1 y1] x2] y2] _.
Qed.

(** *** [_where] followed by [gather] is a filter *)

Lemma where_gather (retains : nat → bool) (nmsThr : Q) (rest : list nat)
    (ovr : list js_number) (kept : nat) (before : list nat) :
  Forall2 (λ j v, retains j = js_le v nmsThr) rest ovr →
  tf_gather ((kept :: before) ++ rest)
    ((λ i, i + 1)%nat
       <$> omap (λ '(i, v), if js_le v nmsThr then Some i else None)
                (imap (λ i v, (length before + i, v)%nat) ovr))
  = Some (filter (λ j, retains j = true) rest).
Proof.
  intros Hall. revert before.
  induction Hall as [|j v rest ovr Hjv _ IH]; intros before; [done |].
  rewrite imap_cons.
  assert (Hnext :
    tf_gather ((kept :: before) ++ j :: rest)
      ((λ i, i + 1)%nat
         <$> omap (λ '(i, v), if js_le v nmsThr then Some i else None)
                  (imap ((λ i v, (length before + i, v)%nat) ∘ S) ovr))
    = Some (filter (λ j, retains j = true) rest)).
  { rewrite <- (IH (before ++ [j])).
    rewrite (cons_middle j (kept :: before) rest), app_assoc. simpl app.
    f_equal. f_equal. f_equal. apply imap_ext.
    intros i x _. simpl. f_equal. rewrite length_app. simpl. lia. }
  assert (Hj : ((kept :: before) ++ j :: rest) !! (length before + 0 + 1)%nat = Some j).
  { replace (length before + 0 + 1)%nat with (length (kept :: before)) by (simpl; lia).
    apply list_lookup_middle. done. }
  destruct (js_le v nmsThr) eqn:Hle.
  - rewrite filter_cons_True by done.
    cbn [omap list_omap fmap list_fmap].
    rewrite Hle. cbn [fmap list_fmap]. unfold tf_gather in *. cbn [mapM].
    rewrite Hj. cbn [mbind option_bind]. rewrite Hnext. reflexivity.
  - rewrite filter_cons_False by (rewrite Hjv; done).
    cbn [omap list_omap]. rewrite Hle. exact Hnext.
Qed.

(** *** The quotient of one candidate *)

Lemma intersection_nonnegative (a b : box) : 0 <= Spec.intersection a b.
Proof.
  destruct a as [[[ax1 ay1] ax2] ay2], b as [[[bx1 by1] bx2] by2].
  apply Qmult_le_0_compat; apply Q.le_max_l.
Qed.

(** A dividend that is not negative gives no [-Infinity]: the comparison
    holds exactly when the quotient is a finite number at most the
    threshold. *)
Lemma js_le_divide (a b nmsThr : Q) :
  0 <= a →
  js_le (js_divide a b) nmsThr
  = match js_div a b with
    | Some v => Qle_bool v nmsThr
    | None => false
    end.
Proof.
  intros Ha. unfold js_divide, js_div.
  destruct (Qeq_bool b 0); [| done].
  destruct (Qeq_bool a 0); [done |].
  cbn [js_le]. unfold Qltb. by rewrite (proj2 (Qle_bool_iff 0 a) Ha).
Qed.

(** *** One turn of the loop *)

Lemma nms_next_filter boxes (nmsThr : Q) (kept : nat) rest :
  Forall (λ j, j < length boxes)%nat (kept :: rest) →
  nms_next boxes (Spec.area <$> boxes) nmsThr (kept :: rest)
  = Some (filter (λ j, retained_by_loop boxes nmsThr kept j = true) rest).
Proof.
  intros Hrange.
  destruct (in_range_selected boxes (kept :: rest) Hrange) as [selected Hsel].
  pose proof Hsel as Hsel'.
  apply Forall2_cons_inv_l in Hsel' as (a & others & Ha & Hothers & ->).
  destruct boxes as [|first boxes'] eqn:Hboxes; [done |]. rewrite <- Hboxes in *.
  assert (Hfirst : boxes !! 0%nat = Some first) by (by rewrite Hboxes).
  unfold nms_next.
  rewrite (_getCurrentBox_selected boxes (Some (kept :: rest)) (a :: others) Hsel).
  cbn [mbind option_bind].
  rewrite (tf_gather_areas boxes (kept :: rest) (a :: others) Hsel).
  cbn [mbind option_bind].
  unfold slice_first, slice_rest. rewrite !fmap_cons.
  cbn [take drop]. rewrite !take_0, !drop_0.
  replace (take 1 (Spec.area <$> boxes)) with [Spec.area first]
    by (by rewrite Hboxes).
  unfold tf_maximum, tf_minimum, tf_add, tf_sub, tf_mul, tf_div.
  rewrite !broadcast_fmap_scalar_l, !broadcast_fmap, !broadcast_fmap_scalar_r,
    !broadcast_fmap_scalar_l, !broadcast_fmap.
  unfold _where.
  apply (where_gather (retained_by_loop boxes nmsThr kept) nmsThr rest _ kept []).
  apply Forall2_fmap_r.
  eapply Forall2_impl; [exact Hothers |].
  intros j b Hb. simpl. unfold retained_by_loop.
  rewrite Hfirst, Ha, Hb.
  rewrite <- (js_le_divide (Spec.intersection a b))
    by apply intersection_nonnegative.
  by destruct a as [[[ax1 ay1] ax2] ay2], b as [[[bx1 by1] bx2] by2].
Qed.

(** *** The whole loop *)

(** [length order] turns of the loop are enough: within that fuel the loop
    returns, and its result is the greedy selection. *)
Lemma nms_while_fuel boxes (nmsThr : Q) (fuel : nat) order (keep : list nat) :
  Forall (λ j, j < length boxes)%nat order → (length order ≤ fuel)%nat →
  nms_while fuel boxes (Spec.area <$> boxes) nmsThr order keep
  = Some (keep ++ Spec.greedy (retained_by_loop boxes nmsThr) fuel order).
Proof.
  revert order keep.
  induction fuel as [|fuel IH]; intros order keep Hrange Hfuel.
  - destruct order; simpl in *; [by rewrite app_nil_r | lia].
  - destruct order as [|kept rest]; simpl nms_while; [by rewrite app_nil_r |].
    rewrite nms_next_filter by done. cbn [mbind option_bind].
    rewrite IH.
    + simpl. by rewrite <- app_assoc.
    + apply Forall_cons in Hrange as [_ Hrest].
      apply Forall_forall. intros j Hj%list_elem_of_filter.
      exact (proj1 (Forall_forall _ _) Hrest j (proj2 Hj)).
    + etrans; [apply length_filter |]. simpl in Hfuel. lia.
Qed.

(** *** The order *)

Lemma argSort_insert_perm (scores : list Q) (i : nat) (sorted : list nat) :
  argSort_insert scores i sorted ≡ₚ i :: sorted.
Proof.
  induction sorted as [|j sorted IH]; simpl; [done |].
  destruct (Qle_bool (nth j scores 0) (nth i scores 0)); [done |].
  rewrite IH. apply Permutation_swap.
Qed.

Lemma argSort_perm (scores : list Q) : argSort scores ≡ₚ seq 0 (length scores).
Proof.
  unfold argSort.
  induction (seq 0 (length scores)) as [|i l IH]; simpl; [done |].
  by rewrite argSort_insert_perm, IH.
Qed.

Lemma argSort_in_range (scores : list Q) :
  Forall (λ j, j < length scores)%nat (argSort scores).
Proof.
  rewrite argSort_perm. apply Forall_forall.
  intros j Hj%elem_of_seq. lia.
Qed.

(** [_nms] returns on every list of boxes with at most as many scores, and
    what it returns is the greedy selection of section 4.6 on the order of
    [argSort], with the test [retained_by_loop] in the place of
    [Spec.retained]. *)
Theorem _nms_greedy boxes (scores : list Q) (nmsThr : Q) :
  (length scores ≤ length boxes)%nat →
  _nms boxes scores nmsThr
  = Some (Spec.greedy (retained_by_loop boxes nmsThr)
            (length (argSort scores)) (argSort scores)).
Proof.
  intros Hlen. unfold _nms.
  rewrite (_getCurrentBox_selected boxes None boxes (identity_selected boxes)).
  cbn [mbind option_bind]. rewrite areas_of_boxes.
  rewrite nms_while_fuel; [done | | done].
  eapply Forall_impl; [apply argSort_in_range |]. simpl. lia.
Qed.

Lemma _nms_greedy_witness :
  _nms [(0, 0, 99, 99); (0, 0, 9, 9); (0, 0, 9, 9)]
       [2 # 10; 9 # 10; 8 # 10] (45 # 100)
  = Some (Spec.greedy
            (retained_by_loop
               [(0, 0, 99, 99); (0, 0, 9, 9); (0, 0, 9, 9)] (45 # 100))
            3 [1; 2; 0]%nat).
Proof.
  apply (_nms_greedy [(0, 0, 99, 99); (0, 0, 9, 9); (0, 0, 9, 9)]
           [2 # 10; 9 # 10; 8 # 10] (45 # 100)).
  simpl. lia.
Defined.

End suppression_loop.

Section suppression_examples.

Import DetectionBase.
Local Open Scope Q_scope.

(** C5 on the code.  With a large box at index 0 and two identical boxes
    after it, [_nms] keeps both identical boxes, although their
    intersection over union is 1: the union is computed with the area of
    the box at index 0, not of the kept box.  The algorithm of section 4.6
    keeps one of them. *)
Theorem _nms_area_of_index_zero :
  _nms [(0, 0, 99, 99); (0, 0, 9, 9); (0, 0, 9, 9)]
       [2 # 10; 9 # 10; 8 # 10] (45 # 100)
  = Some [1; 2; 0]%nat
  ∧ Spec.nms [(0, 0, 99, 99); (0, 0, 9, 9); (0, 0, 9, 9)]
             [2 # 10; 9 # 10; 8 # 10] (45 # 100)
    = [1; 0]%nat
  ∧ Spec.retained [(0, 0, 99, 99); (0, 0, 9, 9); (0, 0, 9, 9)] (45 # 100) 1 2
    = false
  ∧ retained_by_loop [(0, 0, 99, 99); (0, 0, 9, 9); (0, 0, 9, 9)] (45 # 100) 1 2
    = true.
Proof. repeat split; by vm_compute. Qed.

(** The example of C5: of two identical boxes with the scores 0.9 and 0.8
    only the first is kept. *)
Lemma _nms_identical_boxes :
  _nms [(0, 0, 9, 9); (0, 0, 9, 9)] [9 # 10; 8 # 10] (45 # 100) = Some [0%nat].
Proof. by vm_compute. Qed.

(** C9 on the code.  The boxes the wrapper keeps on the input below overlap
    by at most 1/3 and have scores above 0.1, and a second run on them drops
    the third: with the small box now at index 0, the overlap of the other
    two is measured against its area. *)
Theorem _multiclassNms_not_idempotent :
  _multiclassNmsClassAgnostic
    [(0, 0, 9, 9); (50, 50, 51, 51); (5, 0, 14, 9)]
    [[8 # 10]; [9 # 10]; [7 # 10]] (45 # 100) (1 # 10)
  = Some [(50, 50, 51, 51); (0, 0, 9, 9); (5, 0, 14, 9)]
  ∧ Spec.no_overlap_above (45 # 100)
      [(50, 50, 51, 51); (0, 0, 9, 9); (5, 0, 14, 9)] = true
  ∧ forallb (Qltb (1 # 10)) [9 # 10; 8 # 10; 7 # 10] = true
  ∧ _multiclassNmsClassAgnostic
      [(50, 50, 51, 51); (0, 0, 9, 9); (5, 0, 14, 9)]
      [[9 # 10]; [8 # 10]; [7 # 10]] (45 # 100) (1 # 10)
    = Some [(50, 50, 51, 51); (0, 0, 9, 9)].
Proof. repeat split; by vm_compute. Qed.

End suppression_examples.

(** ** What the suppression keeps and what it drops *)

Section suppression_properties.

Import DetectionBase.
Local Open Scope Q_scope.

Implicit Types (boxes : list box) (order keep : list nat).

(** *** The greedy selection, for any test *)

Lemma singleton_sublist (c : nat) (l : list nat) : c ∈ l → [c] `sublist_of` l.
Proof.
  intros (l1 & l2 & ->)%list_elem_of_split.
  apply sublist_inserts_l, sublist_skip, sublist_nil_l.
Qed.

Lemma greedy_sublist (retains : nat → nat → bool) (fuel : nat) order :
  Spec.greedy retains fuel order `sublist_of` order.
Proof.
  revert order. induction fuel as [|fuel IH]; intros [|kept rest]; simpl;
    try apply sublist_nil_l.
  apply sublist_skip. etrans; [apply IH | apply sublist_filter].
Qed.

Lemma greedy_head (retains : nat → nat → bool) (fuel : nat) order :
  (length order ≤ fuel)%nat →
  head (Spec.greedy retains fuel order) = head order.
Proof.
  destruct fuel as [|fuel], order as [|kept rest]; simpl; done || lia.
Qed.

(** A kept index retains every index kept after it. *)
Lemma greedy_retained (retains : nat → nat → bool) (fuel : nat) order
    (k c : nat) :
  [k; c] `sublist_of` Spec.greedy retains fuel order → retains k c = true.
Proof.
  revert order. induction fuel as [|fuel IH]; intros [|kept rest]; simpl;
    try (by intros ?%sublist_nil_r).
  intros [Hhere | Hlater]%sublist_cons_r.
  - by apply IH in Hhere.
  - destruct Hlater as (l' & [= <- <-] & Hc).
    assert (Hin : c ∈ Spec.greedy retains fuel
                        (filter (λ c, retains k c = true) rest)).
    { eapply sublist_subseteq; [exact Hc | apply list_elem_of_here]. }
    eapply sublist_subseteq in Hin; [| apply greedy_sublist].
    by apply list_elem_of_filter in Hin as [? _].
Qed.

(** A candidate that is not kept is rejected by an index that is kept and
    stands before it. *)
Lemma greedy_rejected (retains : nat → nat → bool) (fuel : nat) order
    (c : nat) :
  (length order ≤ fuel)%nat →
  c ∈ order → c ∉ Spec.greedy retains fuel order →
  ∃ k, k ∈ Spec.greedy retains fuel order
       ∧ [k; c] `sublist_of` order ∧ retains k c = false.
Proof.
  revert order. induction fuel as [|fuel IH]; intros [|kept rest] Hfuel Hc Hnot;
    simpl in *; try lia; try (by apply elem_of_nil in Hc).
  apply not_elem_of_cons in Hnot as [Hneq Hnot].
  apply elem_of_cons in Hc as [-> | Hc]; [done |].
  destruct (retains kept c) eqn:Hret.
  - destruct (IH (filter (λ c, retains kept c = true) rest)) as (k & Hk & Hsub & Hrej).
    + etrans; [apply length_filter | lia].
    + by apply list_elem_of_filter.
    + exact Hnot.
    + exists k. split; [by apply list_elem_of_further |]. split; [| exact Hrej].
      apply sublist_cons. etrans; [exact Hsub | apply sublist_filter].
  - exists kept. split; [apply list_elem_of_here |]. split; [| exact Hret].
    by apply sublist_skip, singleton_sublist.
Qed.

Lemma filter_ext_elem (test test' : nat → bool) (l : list nat) :
  (∀ c, c ∈ l → test c = test' c) →
  filter (λ c, test c = true) l = filter (λ c, test' c = true) l.
Proof.
  induction l as [|c l IH]; intros Hext; [done |].
  assert (Hc : test c = test' c) by apply Hext, list_elem_of_here.
  assert (Hl : filter (λ c, test c = true) l = filter (λ c, test' c = true) l).
  { apply IH. intros c' Hc'. by apply Hext, list_elem_of_further. }
  destruct (test' c) eqn:Htest.
  - rewrite !filter_cons_True by done. by rewrite Hl.
  - rewrite !filter_cons_False by (by rewrite ?Hc, ?Htest). exact Hl.
Qed.

(** The selection depends on the test between candidates only. *)
Lemma greedy_ext (retains retains' : nat → nat → bool) (fuel : nat) order :
  (∀ k c, k ∈ order → c ∈ order → retains k c = retains' k c) →
  Spec.greedy retains fuel order = Spec.greedy retains' fuel order.
Proof.
  revert order. induction fuel as [|fuel IH]; intros [|kept rest] Hext; simpl;
    try done.
  f_equal.
  assert (Hfilter : filter (λ c, retains kept c = true) rest
                    = filter (λ c, retains' kept c = true) rest).
  { apply filter_ext_elem. intros c Hc.
    apply Hext; [apply list_elem_of_here | by apply list_elem_of_further]. }
  rewrite <- Hfilter. apply IH.
  intros k c Hk%list_elem_of_filter Hc%list_elem_of_filter.
  apply Hext; apply list_elem_of_further; tauto.
Qed.

(** *** When [_nms] returns *)

Lemma nms_next_out_of_range boxes (areas : list Q) (nmsThr : Q) order :
  Exists (λ j, length boxes ≤ j)%nat order →
  nms_next boxes areas nmsThr order = None.
Proof.
  intros Hout. unfold nms_next, _getCurrentBox. simpl default.
  assert (Hnone : mapM (λ j, boxes !! j) order = None).
  { apply mapM_None_2. eapply Exists_impl; [exact Hout |]. simpl.
    intros j Hj. by apply lookup_ge_None_2. }
  by rewrite Hnone.
Qed.

Lemma _nms_more_scores boxes (scores : list Q) (nmsThr : Q) :
  (length boxes < length scores)%nat → _nms boxes scores nmsThr = None.
Proof.
  intros Hlen. unfold _nms.
  rewrite (_getCurrentBox_selected boxes None boxes (identity_selected boxes)).
  cbn [mbind option_bind].
  assert (Hout : Exists (λ j, length boxes ≤ j)%nat (argSort scores)).
  { apply Exists_exists. exists (length boxes). split; [| done].
    rewrite argSort_perm. apply elem_of_seq. lia. }
  destruct (argSort scores) as [|i order] eqn:Horder;
    [by apply Exists_nil in Hout |].
  simpl. by rewrite nms_next_out_of_range.
Qed.

Lemma _nms_Some_length boxes (scores : list Q) (nmsThr : Q) keep :
  _nms boxes scores nmsThr = Some keep → (length scores ≤ length boxes)%nat.
Proof.
  intros Hkeep.
  destruct (Nat.le_gt_cases (length scores) (length boxes)) as [Hle | Hgt];
    [done |].
  by rewrite _nms_more_scores in Hkeep.
Qed.

Lemma _nms_Some_greedy boxes (scores : list Q) (nmsThr : Q) keep :
  _nms boxes scores nmsThr = Some keep →
  keep = Spec.greedy (retained_by_loop boxes nmsThr)
           (length (argSort scores)) (argSort scores).
Proof.
  intros Hkeep. pose proof (_nms_Some_length _ _ _ _ Hkeep) as Hlen.
  rewrite (_nms_greedy boxes scores nmsThr Hlen) in Hkeep. congruence.
Qed.

(** X1.  [_nms] returns exactly when there are at most as many scores as
    boxes; with more scores, the first turn of the loop reads a box that
    does not exist and throws. *)
Theorem _nms_returns_iff boxes (scores : list Q) (nmsThr : Q) :
  is_Some (_nms boxes scores nmsThr) ↔ (length scores ≤ length boxes)%nat.
Proof.
  split.
  - intros [keep Hkeep]. by eapply _nms_Some_length.
  - intros Hlen. by rewrite _nms_greedy.
Qed.

(** X2.  The indices [_nms] returns are indices of scores, each at most
    once, in the order of [argSort]; the first index of that order is
    always among them. *)
Theorem _nms_kept_indices boxes (scores : list Q) (nmsThr : Q) keep :
  _nms boxes scores nmsThr = Some keep →
  keep `sublist_of` argSort scores
  ∧ NoDup keep
  ∧ Forall (λ i, i < length scores)%nat keep
  ∧ head keep = head (argSort scores).
Proof.
  intros Hkeep. apply _nms_Some_greedy in Hkeep as ->.
  pose proof (greedy_sublist (retained_by_loop boxes nmsThr)
                (length (argSort scores)) (argSort scores)) as Hsub.
  split; [exact Hsub |]. split; [| split].
  - eapply sublist_NoDup; [| exact Hsub].
    rewrite argSort_perm. apply NoDup_seq.
  - apply Forall_forall. intros i Hi.
    eapply sublist_subseteq in Hi; [| exact Hsub].
    exact (proj1 (Forall_forall _ _) (argSort_in_range scores) i Hi).
  - by apply greedy_head.
Qed.

Lemma _nms_kept_indices_witness :
  [1; 0]%nat `sublist_of` argSort [8 # 10; 9 # 10; 7 # 10]
  ∧ NoDup [1; 0]%nat
  ∧ Forall (λ i, i < length [8 # 10; 9 # 10; 7 # 10])%nat [1; 0]%nat
  ∧ head [1; 0]%nat = head (argSort [8 # 10; 9 # 10; 7 # 10]).
Proof.
  apply (_nms_kept_indices [(0, 0, 9, 9); (50, 50, 59, 59); (1, 0, 10, 9)]
           [8 # 10; 9 # 10; 7 # 10] (45 # 100) [1; 0]%nat).
  reflexivity.
Defined.

(** X3.  Under the test of the loop ([retained_by_loop]), a box [_nms] keeps
    retains every box kept after it, and every index that is not kept is
    rejected by a kept index that stands before it in the order. *)
Theorem _nms_suppression boxes (scores : list Q) (nmsThr : Q) keep :
  _nms boxes scores nmsThr = Some keep →
  (∀ k c, [k; c] `sublist_of` keep → retained_by_loop boxes nmsThr k c = true)
  ∧ (∀ c, (c < length scores)%nat → c ∉ keep →
       ∃ k, k ∈ keep ∧ [k; c] `sublist_of` argSort scores
            ∧ retained_by_loop boxes nmsThr k c = false).
Proof.
  intros Hkeep. apply _nms_Some_greedy in Hkeep as ->. split.
  - intros k c. apply greedy_retained.
  - intros c Hc Hnot. apply greedy_rejected; [done | | done].
    rewrite argSort_perm. apply elem_of_seq. lia.
Qed.

Lemma _nms_suppression_witness :
  (∀ k c, [k; c] `sublist_of` [1; 0]%nat →
     retained_by_loop [(0, 0, 9, 9); (50, 50, 59, 59); (1, 0, 10, 9)]
       (45 # 100) k c = true)
  ∧ (∀ c, (c < length [8 # 10; 9 # 10; 7 # 10])%nat → c ∉ [1; 0]%nat →
       ∃ k, k ∈ [1; 0]%nat ∧ [k; c] `sublist_of` argSort [8 # 10; 9 # 10; 7 # 10]
            ∧ retained_by_loop [(0, 0, 9, 9); (50, 50, 59, 59); (1, 0, 10, 9)]
                (45 # 100) k c = false).
Proof.
  apply (_nms_suppression [(0, 0, 9, 9); (50, 50, 59, 59); (1, 0, 10, 9)]
           [8 # 10; 9 # 10; 7 # 10] (45 # 100) [1; 0]%nat).
  reflexivity.
Defined.

(** *** Boxes of one area *)

Lemma Qle_bool_proper (v v' t : Q) : v == v' → Qle_bool v t = Qle_bool v' t.
Proof.
  intros Heq. apply eq_true_iff_eq. rewrite !Qle_bool_iff. by rewrite Heq.
Qed.

Lemma Qeq_bool_proper (v v' : Q) : v == v' → Qeq_bool v 0 = Qeq_bool v' 0.
Proof.
  intros Heq. apply eq_true_iff_eq. rewrite !Qeq_bool_iff. by rewrite Heq.
Qed.

Lemma retained_by_loop_equal_areas boxes (nmsThr : Q) (k c : nat) :
  (∀ a b, a ∈ boxes → b ∈ boxes → Spec.area a == Spec.area b) →
  (k < length boxes)%nat → (c < length boxes)%nat →
  retained_by_loop boxes nmsThr k c = Spec.retained boxes nmsThr k c.
Proof.
  intros Harea Hk Hc.
  destruct (lookup_lt_is_Some_2 boxes k Hk) as [a Ha].
  destruct (lookup_lt_is_Some_2 boxes c Hc) as [b Hb].
  destruct (lookup_lt_is_Some_2 boxes 0%nat) as [first Hfirst]; [lia |].
  unfold retained_by_loop, Spec.retained, Spec.iou, js_div.
  rewrite Hfirst, Ha, Hb.
  assert (Hunion :
    Spec.area first + Spec.area b - Spec.intersection a b
    == Spec.area a + Spec.area b - Spec.intersection a b).
  { rewrite (Harea first a); [reflexivity | |];
      by eapply list_elem_of_lookup_2. }
  rewrite (Qeq_bool_proper _ _ Hunion).
  destruct (Qeq_bool (Spec.area a + Spec.area b - Spec.intersection a b) 0);
    [done |].
  apply Qle_bool_proper. by rewrite Hunion.
Qed.

(** X4.  On boxes that all have the same area, [_nms] is the suppression of
    section 4.6: the area of the box at index 0, which the loop uses for
    every union, is then the area of the kept box. *)
Theorem _nms_equal_areas boxes (scores : list Q) (nmsThr : Q) :
  (length scores ≤ length boxes)%nat →
  (∀ a b, a ∈ boxes → b ∈ boxes → Spec.area a == Spec.area b) →
  _nms boxes scores nmsThr = Some (Spec.nms boxes scores nmsThr).
Proof.
  intros Hlen Harea. rewrite _nms_greedy by done. f_equal.
  unfold Spec.nms. apply greedy_ext. intros k c Hk Hc.
  pose proof (argSort_in_range scores) as Hrange.
  rewrite Forall_forall in Hrange.
  apply retained_by_loop_equal_areas; [done | |].
  - specialize (Hrange k Hk). simpl in Hrange. lia.
  - specialize (Hrange c Hc). simpl in Hrange. lia.
Qed.

Lemma _nms_equal_areas_witness :
  _nms [(0, 0, 9, 9); (1, 0, 10, 9); (50, 50, 59, 59)]
       [8 # 10; 9 # 10; 7 # 10] (45 # 100)
  = Some (Spec.nms [(0, 0, 9, 9); (1, 0, 10, 9); (50, 50, 59, 59)]
            [8 # 10; 9 # 10; 7 # 10] (45 # 100)).
Proof.
  apply (_nms_equal_areas [(0, 0, 9, 9); (1, 0, 10, 9); (50, 50, 59, 59)]
           [8 # 10; 9 # 10; 7 # 10] (45 # 100)).
  - simpl. lia.
  - intros a b Ha Hb.
    assert (Hall : ∀ x, x ∈ [(0, 0, 9, 9); (1, 0, 10, 9); (50, 50, 59, 59)] →
                     Spec.area x == 100).
    { intros x Hx. repeat (apply elem_of_cons in Hx as [-> | Hx]; [by vm_compute |]).
      by apply elem_of_nil in Hx. }
    by rewrite (Hall a Ha), (Hall b Hb).
Defined.

(** *** [_where] *)

Lemma where_from (ovr : list js_number) (nmsThr : Q) (offset i : nat) :
  i ∈ omap (λ '(i, v), if js_le v nmsThr then Some i else None)
           (imap (λ i v, (offset + i, v)%nat) ovr)
  ↔ ∃ j v, i = (offset + j)%nat ∧ ovr !! j = Some v ∧ js_le v nmsThr = true.
Proof.
  rewrite list_elem_of_omap. split.
  - intros ([j' v'] & Hin & Hsome).
    apply elem_of_lookup_imap in Hin as (j & v & [= -> ->] & Hj).
    destruct (js_le v nmsThr) eqn:Hle; [| done].
    injection Hsome as <-. by exists j, v.
  - intros (j & v & -> & Hj & Hle).
    exists ((offset + j)%nat, v). split.
    + apply elem_of_lookup_imap. by exists j, v.
    + by rewrite Hle.
Qed.

Lemma where_sorted (ovr : list js_number) (nmsThr : Q) (offset : nat) :
  StronglySorted lt
    (omap (λ '(i, v), if js_le v nmsThr then Some i else None)
          (imap (λ i v, (offset + i, v)%nat) ovr)).
Proof.
  revert offset. induction ovr as [|v ovr IH]; intros offset; [constructor |].
  rewrite imap_cons.
  assert (Htail :
    imap ((λ i v, (offset + i, v)%nat) ∘ S) ovr
    = imap (λ i v, (S offset + i, v)%nat) ovr).
  { apply imap_ext. intros i x _. simpl. f_equal. lia. }
  rewrite Htail. cbn [omap list_omap].
  destruct (js_le v nmsThr); [| apply IH].
  constructor; [apply IH |].
  apply Forall_forall. intros i (j & w & -> & _)%where_from. lia.
Qed.

Lemma js_le_cases (v : js_number) (nmsThr : Q) :
  js_le v nmsThr = true
  ↔ (∃ q, v = Finite q ∧ q <= nmsThr) ∨ v = Infinity true.
Proof.
  destruct v as [q | | negative]; cbn [js_le].
  - rewrite Qle_bool_iff. split.
    + intros Hle. left. by exists q.
    + by intros [(q' & [= <-] & Hle) | ?].
  - split; [done | by intros [(q & ? & _) | ?]].
  - split.
    + intros ->. by right.
    + by intros [(q & ? & _) | [= ->]].
Qed.

(** X5.  [_where] returns the positions whose value is at most the
    threshold, each once and in ascending order: the positions of the
    finite numbers at most the threshold and of [-Infinity], and no position
    of [NaN] or [Infinity]. *)
Theorem _where_positions (ovr : list js_number) (nmsThr : Q) :
  (∀ i, i ∈ _where ovr nmsThr
        ↔ (∃ q, ovr !! i = Some (Finite q) ∧ q <= nmsThr)
          ∨ ovr !! i = Some (Infinity true))
  ∧ StronglySorted lt (_where ovr nmsThr).
Proof.
  split.
  - intros i. unfold _where.
    rewrite (where_from ovr nmsThr 0 i). split.
    + intros (j & v & -> & Hj & Hle). cbn [Nat.add].
      apply js_le_cases in Hle as [(q & -> & Hq) | ->];
        [left; by exists q | by right].
    + intros [(q & Hi & Hq) | Hi].
      * exists i, (Finite q). split; [done |]. split; [done |].
        apply js_le_cases. left. by exists q.
      * exists i, (Infinity true). by repeat split.
  - exact (where_sorted ovr nmsThr 0).
Qed.

(** *** The score filter of [_multiclassNmsClassAgnostic] *)

(** The pairs the first loop collects: one for each score above the
    threshold, with the box of the same index. *)
Lemma valid_pairs_above (clsScores : list Q) (clsBoxes : list box)
    (scoreThr : Q) (i : nat) :
  (i + length clsScores ≤ length clsBoxes)%nat →
  ∃ validScores validBoxes,
    valid_pairs clsScores clsBoxes scoreThr i = Some (validScores, validBoxes)
    ∧ validScores = filter (λ score, Qltb scoreThr score = true) clsScores
    ∧ Forall2 (λ score b,
                 ∃ j, clsScores !! j = Some score ∧ clsBoxes !! (i + j)%nat = Some b
                      ∧ Qltb scoreThr score = true)
              validScores validBoxes.
Proof.
  revert i. induction clsScores as [|score clsScores IH]; intros i Hlen.
  - exists [], []. by repeat split; try constructor.
  - simpl in Hlen.
    destruct (IH (S i)) as (vs & vb & Hrec & Hvs & Hall); [lia |].
    assert (Hshift : Forall2 (λ score' b,
                        ∃ j, (score :: clsScores) !! j = Some score'
                             ∧ clsBoxes !! (i + j)%nat = Some b
                             ∧ Qltb scoreThr score' = true) vs vb).
    { eapply Forall2_impl; [exact Hall |].
      intros s b (j & Hs & Hb & Habove). exists (S j).
      split; [done |]. split; [| done].
      by replace (i + S j)%nat with (S i + j)%nat by lia. }
    cbn [valid_pairs]. rewrite Hrec.
    destruct (Qltb scoreThr score) eqn:Habove.
    + destruct (lookup_lt_is_Some_2 clsBoxes i) as [b Hb]; [lia |].
      rewrite Hb. cbn [mbind option_bind].
      exists (score :: vs), (b :: vb). split; [done |]. split.
      * rewrite filter_cons_True by done. by rewrite Hvs.
      * constructor; [| exact Hshift].
        exists 0%nat. by rewrite Nat.add_0_r.
    + exists vs, vb. split; [done |]. split; [| exact Hshift].
      rewrite filter_cons_False by (by rewrite Habove). exact Hvs.
Qed.

Lemma valid_pairs_none_above (clsScores : list Q) (clsBoxes : list box)
    (scoreThr : Q) (i : nat) :
  Forall (λ score, Qltb scoreThr score = false) clsScores →
  valid_pairs clsScores clsBoxes scoreThr i = Some ([], []).
Proof.
  intros Hall. revert i.
  induction Hall as [|score clsScores Hscore _ IH]; intros i; [done |].
  cbn [valid_pairs]. rewrite Hscore. apply IH.
Qed.

Lemma filter_above_nil (scoreThr : Q) (l : list Q) :
  filter (λ score, Qltb scoreThr score = true) l = []
  ↔ Forall (λ score, Qltb scoreThr score = false) l.
Proof.
  induction l as [|score l IH]; [by split; [constructor |] |].
  destruct (Qltb scoreThr score) eqn:Habove.
  - rewrite filter_cons_True by done. split; [done |].
    intros [Hfalse _]%Forall_cons. congruence.
  - rewrite filter_cons_False by (by rewrite Habove).
    rewrite IH. split; [by constructor | by intros [_ ?]%Forall_cons].
Qed.

(** The boxes that come back from the suppression, when every score has a
    box. *)
Lemma multiclass_detections boxes (scores : list (list Q))
    (nmsThr scoreThr : Q) :
  (length (concat scores) ≤ length boxes)%nat →
  ∃ detections,
    _multiclassNmsClassAgnostic boxes scores nmsThr scoreThr = Some detections
    ∧ Forall (λ b, ∃ j score,
                boxes !! j = Some b ∧ concat scores !! j = Some score
                ∧ Qltb scoreThr score = true) detections
    ∧ (length detections
       ≤ length (filter (λ score, Qltb scoreThr score = true) (concat scores)))%nat
    ∧ (detections = []
       ↔ Forall (λ score, Qltb scoreThr score = false) (concat scores)).
Proof.
  intros Hlen. unfold _multiclassNmsClassAgnostic. cbv zeta.
  destruct (valid_pairs_above (concat scores) boxes scoreThr 0)
    as (vs & vb & Hpairs & Hvs & Hall); [simpl; lia |].
  rewrite Hpairs. cbn [mbind option_bind].
  pose proof (Forall2_length _ _ _ Hall) as Hsame.
  assert (Hreturns : is_Some (_nms vb vs nmsThr)).
  { rewrite _nms_greedy by lia. eauto. }
  destruct Hreturns as [keep Hkeep]. rewrite Hkeep. cbn [mbind option_bind].
  pose proof Hkeep as Hgreedy. apply _nms_Some_greedy in Hgreedy.
  assert (Hsub : keep `sublist_of` argSort vs).
  { rewrite Hgreedy. apply greedy_sublist. }
  assert (Hrange : Forall (λ i, i < length vb)%nat keep).
  { apply Forall_forall. intros i Hi.
    eapply sublist_subseteq in Hi; [| exact Hsub].
    pose proof (proj1 (Forall_forall _ _) (argSort_in_range vs) i Hi) as Hlt.
    simpl in Hlt. lia. }
  destruct (in_range_selected vb keep Hrange) as [detections Hsel].
  exists detections. split; [by apply mapM_Some_2 |].
  pose proof (Forall2_length _ _ _ Hsel) as Hcount.
  split; [| split].
  - apply Forall_forall. intros b Hb.
    apply list_elem_of_lookup in Hb as [n Hn].
    destruct (Forall2_lookup_r _ _ _ _ _ Hsel Hn) as (i & _ & Hi).
    destruct (Forall2_lookup_r _ _ _ _ _ Hall Hi) as (score & _ & j & Hs & Hj & Habove).
    by exists j, score.
  - rewrite <- Hcount, <- Hvs.
    etrans; [apply sublist_length, Hsub |].
    by rewrite argSort_perm, length_seq.
  - rewrite <- filter_above_nil, <- Hvs. split.
    + intros ->. destruct keep as [|i keep]; [| done].
      assert (Hhead : head (argSort vs) = None).
      { rewrite <- (greedy_head (retained_by_loop vb nmsThr)
                      (length (argSort vs))) by done.
        by rewrite <- Hgreedy. }
      apply head_None in Hhead.
      apply (f_equal length) in Hhead.
      rewrite argSort_perm, length_seq in Hhead.
      by destruct vs.
    + intros ->. destruct vb; [| done].
      inversion Hrange as [| i keep' Hi _ Heq]; subst; [| simpl in Hi; lia].
      by inversion Hsel.
Qed.

(** X6.  With a box for every score, [_multiclassNmsClassAgnostic] returns.
    Every box it returns is an input box whose score is above [scoreThr];
    it returns no more boxes than there are such scores, and at least one
    as soon as there is one. *)
Theorem _multiclassNmsClassAgnostic_selects boxes (scores : list (list Q))
    (nmsThr scoreThr : Q) :
  (length (concat scores) ≤ length boxes)%nat →
  ∃ detections,
    _multiclassNmsClassAgnostic boxes scores nmsThr scoreThr = Some detections
    ∧ Forall (λ b, ∃ j score,
                boxes !! j = Some b ∧ concat scores !! j = Some score
                ∧ Qltb scoreThr score = true) detections
    ∧ (length detections
       ≤ length (filter (λ score, Qltb scoreThr score = true) (concat scores)))%nat
    ∧ (detections = []
       ↔ Forall (λ score, Qltb scoreThr score = false) (concat scores)).
Proof. apply multiclass_detections. Qed.

Lemma _multiclassNmsClassAgnostic_selects_witness :
  ∃ detections,
    _multiclassNmsClassAgnostic
      [(0, 0, 9, 9); (50, 50, 51, 51); (5, 0, 14, 9)]
      [[8 # 10]; [9 # 10]; [5 # 100]] (45 # 100) (1 # 10) = Some detections
    ∧ Forall (λ b, ∃ j score,
                [(0, 0, 9, 9); (50, 50, 51, 51); (5, 0, 14, 9)] !! j = Some b
                ∧ concat [[8 # 10]; [9 # 10]; [5 # 100]] !! j = Some score
                ∧ Qltb (1 # 10) score = true) detections
    ∧ (length detections
       ≤ length (filter (λ score, Qltb (1 # 10) score = true)
                   (concat [[8 # 10]; [9 # 10]; [5 # 100]])))%nat
    ∧ (detections = []
       ↔ Forall (λ score, Qltb (1 # 10) score = false)
           (concat [[8 # 10]; [9 # 10]; [5 # 100]])).
Proof.
  apply (_multiclassNmsClassAgnostic_selects
           [(0, 0, 9, 9); (50, 50, 51, 51); (5, 0, 14, 9)]
           [[8 # 10]; [9 # 10]; [5 # 100]] (45 # 100) (1 # 10)).
  simpl. lia.
Defined.

(** X7.  When no score is above [scoreThr] (a score equal to it is not),
    [_multiclassNmsClassAgnostic] returns no box, whatever the boxes are
    and however many there are. *)
Theorem _multiclassNmsClassAgnostic_none_above boxes (scores : list (list Q))
    (nmsThr scoreThr : Q) :
  Forall (λ score, Qle_bool score scoreThr = true) (concat scores) →
  _multiclassNmsClassAgnostic boxes scores nmsThr scoreThr = Some [].
Proof.
  intros Hall. unfold _multiclassNmsClassAgnostic. cbv zeta.
  rewrite valid_pairs_none_above; [done |].
  eapply Forall_impl; [exact Hall |]. simpl.
  intros score Hle. unfold Qltb. by rewrite Hle.
Qed.

Lemma _multiclassNmsClassAgnostic_none_above_witness :
  _multiclassNmsClassAgnostic [] [[1 # 10]; [5 # 100]] (45 # 100) (1 # 10)
  = Some [].
Proof.
  apply (_multiclassNmsClassAgnostic_none_above
           [] [[1 # 10]; [5 # 100]] (45 # 100) (1 # 10)).
  repeat constructor.
Defined.

End suppression_properties.

(** ** The anchors of [_demoPostProcess] *)

Section grid_properties.

Import DetectionBase.

Lemma make_grid_S (hsize wsize : nat) :
  make_grid (S hsize) wsize
  = make_grid hsize wsize ++ ((λ x, (x, hsize)) <$> seq 0 wsize).
Proof.
  unfold make_grid. rewrite seq_S, fmap_app, concat_app. simpl.
  by rewrite app_nil_r.
Qed.

Lemma length_make_grid (hsize wsize : nat) :
  length (make_grid hsize wsize) = hsize * wsize.
Proof.
  induction hsize as [|hsize IH]; [done |].
  rewrite make_grid_S, length_app, IH, length_fmap, length_seq. lia.
Qed.

(** The cells of one grid come row by row, [x] running fastest. *)
Lemma make_grid_lookup (hsize wsize j : nat) :
  j < hsize * wsize →
  make_grid hsize wsize !! j = Some (j mod wsize, j / wsize).
Proof.
  induction hsize as [|hsize IH]; intros Hj; [lia |].
  rewrite make_grid_S.
  destruct (Nat.lt_ge_cases j (hsize * wsize)) as [Hlt | Hge].
  - rewrite lookup_app_l by (by rewrite length_make_grid). by apply IH.
  - rewrite lookup_app_r by (by rewrite length_make_grid).
    rewrite length_make_grid, list_lookup_fmap.
    rewrite lookup_seq_lt by lia. simpl.
    f_equal. f_equal.
    + apply Nat.mod_unique with hsize; lia.
    + apply Nat.div_unique with (j - hsize * wsize); lia.
Qed.

(** X8.  The anchors of an image of [H] by [W] pixels are laid out stride
    by stride (8, then 16, then 32); within a stride the cell of anchor [j]
    is [(j mod (W / stride), j / (W / stride))], and the stride recorded
    for it is that stride. *)
Theorem flatGrids_layout (H W j : nat) :
  (j < H / 8 * (W / 8) →
   flatGrids (H, W) !! j = Some (j mod (W / 8), j / (W / 8))
   ∧ flatExpandedStrides (H, W) !! j = Some 8)
  ∧ (j < H / 16 * (W / 16) →
     flatGrids (H, W) !! (H / 8 * (W / 8) + j)
     = Some (j mod (W / 16), j / (W / 16))
     ∧ flatExpandedStrides (H, W) !! (H / 8 * (W / 8) + j) = Some 16)
  ∧ (j < H / 32 * (W / 32) →
     flatGrids (H, W) !! (H / 8 * (W / 8) + H / 16 * (W / 16) + j)
     = Some (j mod (W / 32), j / (W / 32))
     ∧ flatExpandedStrides (H, W) !! (H / 8 * (W / 8) + H / 16 * (W / 16) + j)
       = Some 32)
  ∧ length (flatGrids (H, W))
    = H / 8 * (W / 8) + H / 16 * (W / 16) + H / 32 * (W / 32).
Proof.
  unfold flatGrids, flatExpandedStrides, strides.
  cbn [fmap list_fmap concat fst snd]. rewrite !app_nil_r.
  rewrite !length_make_grid.
  repeat split.
  - rewrite lookup_app_l by (by rewrite length_make_grid).
    by apply make_grid_lookup.
  - rewrite lookup_app_l by (by rewrite length_replicate).
    by apply lookup_replicate_2.
  - rewrite lookup_app_r by (rewrite length_make_grid; lia).
    rewrite length_make_grid.
    replace (H / 8 * (W / 8) + j - H / 8 * (W / 8)) with j by lia.
    rewrite lookup_app_l by (by rewrite length_make_grid).
    by apply make_grid_lookup.
  - rewrite lookup_app_r by (rewrite length_replicate; lia).
    rewrite length_replicate.
    replace (H / 8 * (W / 8) + j - H / 8 * (W / 8)) with j by lia.
    rewrite lookup_app_l by (by rewrite length_replicate).
    by apply lookup_replicate_2.
  - rewrite lookup_app_r by (rewrite length_make_grid; lia).
    rewrite length_make_grid.
    rewrite lookup_app_r by (rewrite length_make_grid; lia).
    rewrite length_make_grid.
    replace (H / 8 * (W / 8) + H / 16 * (W / 16) + j
             - H / 8 * (W / 8) - H / 16 * (W / 16)) with j by lia.
    by apply make_grid_lookup.
  - rewrite lookup_app_r by (rewrite length_replicate; lia).
    rewrite length_replicate.
    rewrite lookup_app_r by (rewrite length_replicate; lia).
    rewrite length_replicate.
    replace (H / 8 * (W / 8) + H / 16 * (W / 16) + j
             - H / 8 * (W / 8) - H / 16 * (W / 16)) with j by lia.
    by apply lookup_replicate_2.
  - rewrite !length_app, !length_make_grid. lia.
Qed.

End grid_properties.

Section decoding_properties.

Import DetectionBase.
Local Open Scope Q_scope.

Variable Math_exp : Q → Q.

Lemma chunks_lookup {A} (count size : nat) (data : list A) (j : nat) :
  (j < count)%nat →
  chunks count size data !! j = Some (take size (drop (j * size) data)).
Proof.
  revert data j. induction count as [|count IH]; intros data [|j] Hj; simpl;
    try lia.
  - by rewrite drop_0.
  - rewrite IH by lia. by rewrite drop_drop.
Qed.

Lemma decode_anchors_lookup (imageSize : nat * nat) (anchors : list (list Q))
    (decoded : list (list Q)) (j : nat) (output : list Q) :
  decode_anchors Math_exp imageSize anchors = Some decoded →
  anchors !! j = Some output →
  ∃ grid stride d,
    flatGrids imageSize !! j = Some grid
    ∧ flatExpandedStrides imageSize !! j = Some stride
    ∧ decode_anchor Math_exp output grid stride = Some d
    ∧ decoded !! j = Some d.
Proof.
  intros Hdec%mapM_Some_1 Hj.
  destruct (Forall2_lookup_l _ _ _ j (j, output) Hdec) as (d & Hd & Hf).
  { by rewrite list_lookup_imap, Hj. }
  simpl in Hf.
  destruct (flatGrids imageSize !! j) as [grid |]; [| done].
  destruct (flatExpandedStrides imageSize !! j) as [stride |]; [| done].
  by exists grid, stride, d.
Qed.

Lemma decode_anchor_length (output : list Q) (grid : nat * nat) (stride : nat)
    (d : list Q) :
  decode_anchor Math_exp output grid stride = Some d → length d = length output.
Proof.
  destruct output as [|o0 [|o1 [|o2 [|o3 rest]]]]; try done.
  by intros [= <-].
Qed.

Lemma decode_anchors_shape (imageSize : nat * nat) (anchors : list (list Q))
    (decoded : list (list Q)) :
  decode_anchors Math_exp imageSize anchors = Some decoded →
  Forall2 (λ row d, length d = length row) anchors decoded.
Proof.
  intros Hdec. apply Forall2_same_length_lookup_2.
  - apply length_mapM in Hdec. by rewrite length_imap in Hdec.
  - intros j row d Hrow Hd.
    destruct (decode_anchors_lookup imageSize anchors decoded j row Hdec Hrow)
      as (grid & stride & d' & _ & _ & Hd' & Hj).
    rewrite Hd in Hj. injection Hj as ->.
    by eapply decode_anchor_length.
Qed.

(** [_demoPostProcess] throws on a tensor that does not fit [dims], on no
    batch element, and on more anchors than there are grid cells. *)
Lemma _demoPostProcess_fails (cpuData : list Q) (h w c : nat)
    (imageSize : nat * nat) :
  length cpuData ≠ (h * w * c)%nat ∨ h = 0%nat
  ∨ (length (flatGrids imageSize) < w)%nat →
  _demoPostProcess Math_exp cpuData (h, w, c) imageSize = None.
Proof.
  intros Hbad. unfold _demoPostProcess.
  destruct (Nat.eq_dec (length cpuData) (h * w * c)%nat) as [Hlen | Hlen].
  2: { unfold reshape. by rewrite (proj2 (Nat.eqb_neq _ _) Hlen). }
  destruct h as [|h].
  { unfold reshape. by rewrite (proj2 (Nat.eqb_eq _ _) Hlen). }
  destruct Hbad as [? | [? | Hw]]; [done | done |].
  destruct (reshape_head cpuData (S h) w c Hlen) as (outputs & -> & Hshape);
    [lia |].
  cbn [mbind option_bind]. cbv zeta.
  destruct (arraySync_cases (Spec.anchors cpuData (S h, w, c) :: outputs))
    as [-> | ->]; [done |].
  cbn [mapM].
  assert (Hcount : length (Spec.anchors cpuData (S h, w, c)) = w)
    by apply length_chunks.
  destruct (lookup_lt_is_Some_2 (Spec.anchors cpuData (S h, w, c))
              (length (flatGrids imageSize))) as [row Hrow]; [lia |].
  assert (Hnone : decode_anchors Math_exp imageSize
                    (Spec.anchors cpuData (S h, w, c)) = None).
  { unfold decode_anchors. apply mapM_None_2, Exists_exists.
    exists (length (flatGrids imageSize), row). split.
    - apply elem_of_lookup_imap. by exists (length (flatGrids imageSize)), row.
    - simpl. by rewrite (lookup_ge_None_2 (flatGrids imageSize)). }
  by rewrite Hnone.
Qed.

(** What [_demoPostProcess] returns has one row for each anchor, of as many
    attributes as the raw rows. *)
Lemma _demoPostProcess_shape (cpuData : list Q) (h w c : nat)
    (imageSize : nat * nat) (predictions : list (list Q)) :
  _demoPostProcess Math_exp cpuData (h, w, c) imageSize = Some predictions →
  decode_anchors Math_exp imageSize (Spec.anchors cpuData (h, w, c))
  = Some predictions
  ∧ length predictions = w
  ∧ Forall (λ row, length row = c) predictions.
Proof.
  intros Hpred.
  assert (Hlen : length cpuData = (h * w * c)%nat).
  { destruct (Nat.eq_dec (length cpuData) (h * w * c)%nat) as [Hlen | Hlen]; [done |].
    rewrite _demoPostProcess_fails in Hpred by auto. done. }
  assert (Hh : (1 ≤ h)%nat).
  { destruct h; [| lia]. rewrite _demoPostProcess_fails in Hpred by auto. done. }
  destruct (reshape_head cpuData h w c Hlen Hh) as (outputs & Hreshape & Hshape).
  unfold _demoPostProcess in Hpred. rewrite Hreshape in Hpred.
  cbn [mbind option_bind] in Hpred. cbv zeta in Hpred.
  destruct (arraySync_cases (Spec.anchors cpuData (h, w, c) :: outputs))
    as [Harrays | Harrays]; rewrite Harrays in Hpred; [done |].
  cbn [mbind option_bind mapM] in Hpred.
  destruct (decode_anchors Math_exp imageSize (Spec.anchors cpuData (h, w, c)))
    as [first |] eqn:Hfirst; [| done].
  cbn [mbind option_bind] in Hpred.
  destruct (mapM (decode_anchors Math_exp imageSize) outputs); [| done].
  simpl in Hpred. injection Hpred as ->.
  split; [done |].
  pose proof (decode_anchors_shape _ _ _ Hfirst) as Hrows.
  destruct (Forall_inv Hshape) as [Hcount Hraw].
  split; [by rewrite <- (Forall2_length _ _ _ Hrows) |].
  apply Forall_forall. intros d Hd.
  apply list_elem_of_lookup in Hd as [j Hj].
  destruct (Forall2_lookup_r _ _ _ _ _ Hrows Hj) as (row & Hrow & ->).
  exact (proj1 (Forall_forall _ _) Hraw row (list_elem_of_lookup_2 _ _ _ Hrow)).
Qed.

(** X9.  On a tensor of [h ≥ 1] batch elements, [w ≥ 1] anchors within the
    grid and [c ≥ 4] attributes, [_demoPostProcess] returns the [w] anchors
    of the first batch element: anchor [j] has its centre moved by its grid
    cell and scaled by its stride, its size passed through [Math.exp] and
    scaled by its stride, and its other attributes unchanged. *)
Theorem _demoPostProcess_rows (cpuData : list Q) (h w c : nat)
    (imageSize : nat * nat) :
  length cpuData = (h * w * c)%nat → (1 ≤ h)%nat → (1 ≤ w)%nat →
  (w ≤ length (flatGrids imageSize))%nat → (4 ≤ c)%nat →
  ∃ predictions,
    _demoPostProcess Math_exp cpuData (h, w, c) imageSize = Some predictions
    ∧ length predictions = w
    ∧ ∀ j, (j < w)%nat →
        ∃ gx gy stride o0 o1 o2 o3 rest,
          flatGrids imageSize !! j = Some (gx, gy)
          ∧ flatExpandedStrides imageSize !! j = Some stride
          ∧ take c (drop (j * c) cpuData) = o0 :: o1 :: o2 :: o3 :: rest
          ∧ predictions !! j
            = Some ((o0 + of_nat gx) * of_nat stride
                    :: (o1 + of_nat gy) * of_nat stride
                    :: Math_exp o2 * of_nat stride
                    :: Math_exp o3 * of_nat stride
                    :: rest).
Proof.
  intros Hlen Hh Hanchor Hw Hc.
  destruct (_demoPostProcess_decoded Math_exp cpuData h w c imageSize
              Hlen Hh Hw Hc Hanchor) as (predictions & Hpred & _).
  exists predictions. split; [exact Hpred |].
  destruct (_demoPostProcess_shape _ _ _ _ _ _ Hpred) as (Hfirst & Hcount & _).
  split; [exact Hcount |].
  intros j Hj.
  assert (Hrow : Spec.anchors cpuData (h, w, c) !! j
                 = Some (take c (drop (j * c) cpuData)))
    by (by apply chunks_lookup).
  destruct (decode_anchors_lookup _ _ _ _ _ Hfirst Hrow)
    as ([gx gy] & stride & d & Hg & Hs & Hd & Hdj).
  destruct (take c (drop (j * c) cpuData)) as [|o0 [|o1 [|o2 [|o3 rest]]]];
    try done.
  exists gx, gy, stride, o0, o1, o2, o3, rest.
  simpl in Hd. injection Hd as <-. done.
Qed.

Lemma concat_chunks_nil {A} (count size : nat) :
  concat (chunks count size ([] : list A)) = [].
Proof.
  induction count as [|count IH]; [done |].
  cbn [chunks concat]. by rewrite take_nil, drop_nil, IH.
Qed.

(** A tensor without elements has the empty array for its nested arrays. *)
Lemma arraySync_no_element (h w c size : nat) :
  arraySync (chunks w c <$> chunks h size []) = [].
Proof.
  unfold arraySync.
  assert (Hnil : concat (concat (chunks w c <$> chunks h size ([] : list Q)))
                 = []).
  { induction h as [|h IH]; [done |].
    cbn [chunks]. rewrite fmap_cons. cbn [concat].
    rewrite take_nil, drop_nil, concat_app, IH, app_nil_r.
    apply concat_chunks_nil. }
  by rewrite Hnil.
Qed.

(** X10.  [_demoPostProcess] throws when the tensor does not have
    [h * w * c] elements, when it has no element at all (no batch element,
    no anchor or no attribute), and when there are more anchors than grid
    cells. *)
Theorem _demoPostProcess_throws (cpuData : list Q) (h w c : nat)
    (imageSize : nat * nat) :
  length cpuData ≠ (h * w * c)%nat ∨ (h * w * c = 0)%nat
  ∨ (length (flatGrids imageSize) < w)%nat →
  _demoPostProcess Math_exp cpuData (h, w, c) imageSize = None.
Proof.
  intros [Hlen | [Hsize | Hcells]];
    [by apply _demoPostProcess_fails; left | |
     by apply _demoPostProcess_fails; right; right].
  destruct (Nat.eq_dec (length cpuData) (h * w * c)%nat) as [Hlen | Hlen];
    [| by apply _demoPostProcess_fails; left].
  unfold _demoPostProcess, reshape.
  rewrite (proj2 (Nat.eqb_eq _ _) Hlen). cbn [mbind option_bind]. cbv zeta.
  rewrite Hsize in Hlen. apply nil_length_inv in Hlen as ->.
  by rewrite arraySync_no_element.
Qed.

(** *** Corner form *)

(** X11.  For a ratio other than zero, [_calcBbox] returns one box for each
    row; the box has the width and the height of the row divided by
    [ratio], around the centre of the row divided by [ratio]. *)
Theorem _calcBbox_geometry (rows : list (Q * Q * Q * Q)) (ratio : Q) :
  ¬ ratio == 0 →
  ∃ boxesXyxy,
    _calcBbox ((λ '(cx, cy, w, h), [cx; cy; w; h]) <$> rows) ratio
    = Some boxesXyxy
    ∧ Forall2 (λ '(cx, cy, w, h) '(x1, y1, x2, y2),
                 x2 - x1 == w / ratio ∧ y2 - y1 == h / ratio
                 ∧ (x1 + x2) / 2 == cx / ratio ∧ (y1 + y2) / 2 == cy / ratio)
              rows boxesXyxy.
Proof.
  intros Hratio. unfold _calcBbox.
  destruct (Qeq_bool ratio 0) eqn:Hzero;
    [by apply Qeq_bool_iff in Hzero |].
  induction rows as [|[[[cx cy] w] h] rows (boxesXyxy & Hrows & Hall)].
  - exists []. split; [done | constructor].
  - eexists (_ :: boxesXyxy). rewrite fmap_cons. cbn [mapM].
    rewrite Hrows. split; [reflexivity |].
    constructor; [| exact Hall].
    repeat split; field; exact Hratio.
Qed.

Lemma _calcBbox_geometry_witness :
  ∃ boxesXyxy,
    _calcBbox ((λ '(cx, cy, w, h), [cx; cy; w; h]) <$> [(100, 100, 40, 20)])
      (1 # 2) = Some boxesXyxy
    ∧ Forall2 (λ '(cx, cy, w, h) '(x1, y1, x2, y2),
                 x2 - x1 == w / (1 # 2) ∧ y2 - y1 == h / (1 # 2)
                 ∧ (x1 + x2) / 2 == cx / (1 # 2)
                 ∧ (y1 + y2) / 2 == cy / (1 # 2))
              [(100, 100, 40, 20)] boxesXyxy.
Proof.
  apply (_calcBbox_geometry [(100, 100, 40, 20)] (1 # 2)).
  intros Hzero. by vm_compute in Hzero.
Defined.

End decoding_properties.

Section decoding_examples.

Import DetectionBase.
Local Open Scope Q_scope.

Lemma _demoPostProcess_rows_witness :
  ∃ predictions,
    _demoPostProcess (λ x, 1 + x) [1; 2; 3; 4; 5; 6; 7; 8; 9; 10] (2, 1, 5)%nat
      (8, 8)%nat = Some predictions
    ∧ length predictions = 1%nat
    ∧ ∀ j, (j < 1)%nat →
        ∃ gx gy stride o0 o1 o2 o3 rest,
          flatGrids (8, 8)%nat !! j = Some (gx, gy)
          ∧ flatExpandedStrides (8, 8)%nat !! j = Some stride
          ∧ take 5 (drop (j * 5) [1; 2; 3; 4; 5; 6; 7; 8; 9; 10])
            = o0 :: o1 :: o2 :: o3 :: rest
          ∧ predictions !! j
            = Some ((o0 + of_nat gx) * of_nat stride
                    :: (o1 + of_nat gy) * of_nat stride
                    :: (λ x, 1 + x) o2 * of_nat stride
                    :: (λ x, 1 + x) o3 * of_nat stride
                    :: rest).
Proof.
  apply (_demoPostProcess_rows (λ x, 1 + x) [1; 2; 3; 4; 5; 6; 7; 8; 9; 10]
           2 1 5 (8, 8)%nat); simpl; lia.
Defined.

Lemma _demoPostProcess_throws_witness :
  _demoPostProcess (λ x, 1 + x) [1; 2; 3; 4; 5; 6; 7; 8; 9; 10] (1, 2, 5)%nat
    (8, 8)%nat = None.
Proof.
  apply (_demoPostProcess_throws (λ x, 1 + x) [1; 2; 3; 4; 5; 6; 7; 8; 9; 10]
           1 2 5 (8, 8)%nat).
  right. right. simpl. lia.
Defined.

End decoding_examples.

(** ** The clipped boxes *)

Section clipping_bounds.

Import DetectionBase.
Local Open Scope Z_scope.

Lemma clamp_low_nonneg (x : Q) : 0 <= (if Qltb x 0 then 0 else parseInt x).
Proof.
  destruct (exponent_notation x) eqn:Hx.
  - destruct (Qltb x 0) eqn:Hneg; [lia |].
    unfold parseInt. rewrite Hx.
    apply andb_true_iff in Hx as [Hnz _].
    destruct x as [n d]. rewrite Qltb_zero in Hneg. simpl Qnum. simpl Qden.
    apply Z.ltb_ge in Hneg.
    assert (Hn : n ≠ 0).
    { intros ->. apply negb_true_iff in Hnz. by vm_compute in Hnz. }
    pose proof (first_digit_range (Z.abs n) (Z.pos d)) as Hdigit.
    assert (Hsgn : Z.sgn n = 1) by lia. rewrite Hsgn. lia.
  - rewrite clamp_low by done. lia.
Qed.

Lemma clamp_high_bound (bound : Z) (x : Q) :
  9 <= bound →
  (if Qltb (inject_Z bound) x then bound else parseInt x) <= bound.
Proof.
  intros Hbound. destruct (exponent_notation x) eqn:Hx.
  - destruct (Qltb (inject_Z bound) x); [lia |].
    pose proof (parseInt_exponent_notation x Hx). lia.
  - rewrite clamp_high by done. lia.
Qed.

Lemma clipped_bounds (prediction : list box) (width height : Z) :
  Forall (λ '(minX, minY, maxX, maxY),
            0 <= minX ∧ 0 <= minY
            ∧ (9 <= width → maxX <= width) ∧ (9 <= height → maxY <= height))
         (_parseToXyxy prediction width height).
Proof.
  unfold _parseToXyxy. apply Forall_fmap, Forall_forall.
  intros [[[x1 y1] x2] y2] _. simpl.
  repeat split; try apply clamp_low_nonneg; apply clamp_high_bound.
Qed.

(** X12.  [_parseToXyxy] returns one box for each box of the prediction.
    The upper-left corner it returns is never negative, whatever the
    notation of the coordinates; the lower-right corner is within an image
    of at least 9 pixels. *)
Theorem _parseToXyxy_bounds (prediction : list box) (width height : Z) :
  length (_parseToXyxy prediction width height) = length prediction
  ∧ Forall (λ '(minX, minY, maxX, maxY),
              0 <= minX ∧ 0 <= minY
              ∧ (9 <= width → maxX <= width) ∧ (9 <= height → maxY <= height))
           (_parseToXyxy prediction width height).
Proof.
  split; [apply length_fmap | apply clipped_bounds].
Qed.

Lemma _parseToXyxy_clips_positional_witness :
  _parseToXyxy [((-5)%Q, (39 # 10)%Q, 500%Q, (41 # 2)%Q)] 416 416
  = Spec.clip 416 416 <$> [((-5)%Q, (39 # 10)%Q, 500%Q, (41 # 2)%Q)]
  ∧ Forall (λ '(minX, minY, maxX, maxY),
              0 <= minX ∧ 0 <= minY ∧ maxX <= 416 ∧ maxY <= 416)
           (_parseToXyxy [((-5)%Q, (39 # 10)%Q, 500%Q, (41 # 2)%Q)] 416 416).
Proof.
  apply (_parseToXyxy_clips_positional
           [((-5)%Q, (39 # 10)%Q, 500%Q, (41 # 2)%Q)] 416 416).
  repeat constructor.
Defined.

End clipping_bounds.

(** ** The pipeline of [_postProcess] *)

Section pipeline_properties.

Import DetectionBase.
Local Open Scope Q_scope.

Variable Math_exp : Q → Q.

Lemma length_concat_singletons {A} (f : list Q → A) (rows : list (list Q)) :
  length (concat ((λ row, [f row]) <$> rows)) = length rows.
Proof.
  induction rows as [|row rows IH]; [done |].
  rewrite fmap_cons. cbn [concat app length]. by rewrite IH.
Qed.

Lemma slice_four_columns (rows : list (list Q)) (c : nat) :
  rows ≠ [] → Forall (λ row, length row = c) rows → (4 ≤ c)%nat →
  slice_columns 0 4 rows = Some (take 4 <$> rows).
Proof.
  intros Hne Hrows Hc. unfold slice_columns.
  destruct rows as [|row rows]; [done |].
  pose proof (Forall_inv Hrows) as Hrow. simpl in Hrow.
  rewrite (proj2 (Nat.leb_le _ _)) by lia. done.
Qed.

Lemma _calcBbox_returns (rows : list (list Q)) (c : nat) (ratio : Q) :
  Forall (λ row, length row = c) rows → (4 ≤ c)%nat → ¬ ratio == 0 →
  ∃ boxesXyxy,
    _calcBbox (take 4 <$> rows) ratio = Some boxesXyxy
    ∧ length boxesXyxy = length rows.
Proof.
  intros Hrows Hc Hratio. unfold _calcBbox.
  destruct (Qeq_bool ratio 0) eqn:Hzero;
    [by apply Qeq_bool_iff in Hzero |].
  assert (Hsome : is_Some (mapM (λ boxes, unscale ratio <$> corners boxes)
                             (take 4 <$> rows))).
  { apply mapM_is_Some, Forall_fmap.
    eapply Forall_impl; [exact Hrows |]. simpl. intros row Hrow.
    destruct row as [|b0 [|b1 [|b2 [|b3 rest]]]]; simpl in Hrow; try lia.
    simpl. eauto. }
  destruct Hsome as [boxesXyxy Hboxes]. exists boxesXyxy. split; [done |].
  apply length_mapM in Hboxes. by rewrite length_fmap in Hboxes.
Qed.

(** X13.  On a tensor of [h ≥ 1] batch elements, [w ≥ 1] anchors within the
    grid and [c ≥ 6] attributes, and for a ratio other than zero,
    [_postProcess] returns: at most one box for each anchor, each with an
    upper-left corner that is not negative and, in an image of at least 9
    pixels, a lower-right corner within the image. *)
Theorem _postProcess_returns (cpuData : list Q) (h w c : nat)
    (inputSize : nat * nat) (width height : Z) (ratio : Q) :
  length cpuData = (h * w * c)%nat → (1 ≤ h)%nat → (1 ≤ w)%nat →
  (w ≤ length (flatGrids inputSize))%nat → (6 ≤ c)%nat → ¬ ratio == 0 →
  ∃ result,
    _postProcess Math_exp cpuData (h, w, c) inputSize width height ratio
    = Some result
    ∧ (length result ≤ w)%nat
    ∧ Forall (λ '(minX, minY, maxX, maxY),
                (0 <= minX)%Z ∧ (0 <= minY)%Z
                ∧ (9 <= width → maxX <= width)%Z
                ∧ (9 <= height → maxY <= height)%Z) result.
Proof.
  intros Hlen Hh Hw Hcells Hc Hratio.
  destruct (_demoPostProcess_decoded Math_exp cpuData h w c inputSize
              Hlen Hh Hcells) as (predictions & Hpred & _); [lia | lia |].
  destruct (_demoPostProcess_shape Math_exp _ _ _ _ _ _ Hpred)
    as (_ & Hcount & Hrows).
  assert (Hne : predictions ≠ []).
  { intros ->. simpl in Hcount. lia. }
  unfold _postProcess. rewrite Hpred. cbn [mbind option_bind].
  rewrite (slice_four_columns predictions c) by (done || lia).
  cbn [mbind option_bind].
  rewrite (_postProcess_scores_products predictions c Hne Hrows Hc).
  cbn [mbind option_bind].
  destruct (_calcBbox_returns predictions c ratio Hrows) as (boxesXyxy & -> & Hboxes);
    [lia | done |].
  cbn [mbind option_bind]. unfold _multiclassNms.
  destruct (multiclass_detections boxesXyxy
              ((λ row, [nth 4 row 0 * nth 5 row 0]) <$> predictions)
              (45 # 100) (1 # 10)) as (detections & -> & _ & Hdetections & _).
  { rewrite (length_concat_singletons (λ row, nth 4 row 0 * nth 5 row 0)). lia. }
  cbn [mbind option_bind]. eexists. split; [reflexivity |]. split.
  - unfold _parseToXyxy. rewrite length_fmap.
    etrans; [exact Hdetections |]. etrans; [apply length_filter |].
    rewrite (length_concat_singletons (λ row, nth 4 row 0 * nth 5 row 0)). lia.
  - apply clipped_bounds.
Qed.

(** X14.  [_postProcess] throws when the tensor does not have [h * w * c]
    elements, when it has no batch element or no anchor, when it has more
    anchors than the grid has cells, and when an anchor has fewer than six
    attributes. *)
Theorem _postProcess_throws (cpuData : list Q) (h w c : nat)
    (inputSize : nat * nat) (width height : Z) (ratio : Q) :
  length cpuData ≠ (h * w * c)%nat ∨ h = 0%nat ∨ w = 0%nat
  ∨ (length (flatGrids inputSize) < w)%nat ∨ (c < 6)%nat →
  _postProcess Math_exp cpuData (h, w, c) inputSize width height ratio = None.
Proof.
  intros Hbad. unfold _postProcess.
  destruct (_demoPostProcess Math_exp cpuData (h, w, c) inputSize)
    as [predictions |] eqn:Hpred; [| done].
  destruct (_demoPostProcess_shape Math_exp _ _ _ _ _ _ Hpred)
    as (_ & Hcount & Hrows).
  cbn [mbind option_bind].
  destruct Hbad as [Hlen | [Hh | [Hw | [Hcells | Hc]]]];
    try (rewrite _demoPostProcess_fails in Hpred by auto; done).
  - destruct predictions; [done | simpl in Hcount; lia].
  - destruct predictions as [|row rows]; [done |].
    pose proof (Forall_inv Hrows) as Hrow. simpl in Hrow.
    destruct (slice_columns 0 4 (row :: rows)); [| done].
    cbn [mbind option_bind]. unfold _postProcess_scores.
    destruct (slice_columns 4 1 (row :: rows)); [| done].
    cbn [mbind option_bind]. unfold slice_columns.
    rewrite (proj2 (Nat.leb_gt _ _)) by lia. done.
Qed.

Lemma lookup_concat_singletons {A} (f : list Q → A) (rows : list (list Q))
    (j : nat) :
  concat ((λ row, [f row]) <$> rows) !! j = f <$> rows !! j.
Proof.
  revert j. induction rows as [|row rows IH]; intros [|j]; try done.
  rewrite fmap_cons. cbn [concat app]. apply IH.
Qed.

(** The stages of a call of [_postProcess] that returns. *)
Lemma _postProcess_stages (cpuData : list Q) (h w c : nat)
    (inputSize : nat * nat) (width height : Z) (ratio : Q)
    (result : list (Z * Z * Z * Z)) :
  _postProcess Math_exp cpuData (h, w, c) inputSize width height ratio
  = Some result →
  ∃ predictions boxesXyxy detections,
    _demoPostProcess Math_exp cpuData (h, w, c) inputSize = Some predictions
    ∧ Forall (λ row, length row = c) predictions
    ∧ (6 ≤ c)%nat
    ∧ _calcBbox (take 4 <$> predictions) ratio = Some boxesXyxy
    ∧ _multiclassNmsClassAgnostic boxesXyxy
        ((λ row, [nth 4 row 0 * nth 5 row 0]) <$> predictions)
        (45 # 100) (1 # 10) = Some detections
    ∧ result = _parseToXyxy detections width height.
Proof.
  unfold _postProcess. intros Hresult.
  destruct (_demoPostProcess Math_exp cpuData (h, w, c) inputSize)
    as [predictions |] eqn:Hpred; [| done].
  destruct (_demoPostProcess_shape Math_exp _ _ _ _ _ _ Hpred)
    as (_ & Hcount & Hrows).
  cbn [mbind option_bind] in Hresult.
  destruct predictions as [|row rows] eqn:Hpredictions; [done |].
  rewrite <- Hpredictions in *.
  assert (Hne : predictions ≠ []) by (by rewrite Hpredictions).
  assert (Hrow : length row = c).
  { rewrite Hpredictions in Hrows. exact (Forall_inv Hrows). }
  assert (Hc : (6 ≤ c)%nat).
  { destruct (Nat.le_gt_cases 6 c) as [Hle | Hgt]; [done |]. exfalso.
    destruct (slice_columns 0 4 predictions); [| done].
    cbn [mbind option_bind] in Hresult. unfold _postProcess_scores in Hresult.
    destruct (slice_columns 4 1 predictions); [| done].
    cbn [mbind option_bind] in Hresult.
    rewrite Hpredictions in Hresult. unfold slice_columns in Hresult.
    rewrite (proj2 (Nat.leb_gt _ _)) in Hresult by lia. done. }
  rewrite (slice_four_columns predictions c) in Hresult by (done || lia).
  cbn [mbind option_bind] in Hresult.
  rewrite (_postProcess_scores_products predictions c Hne Hrows Hc) in Hresult.
  cbn [mbind option_bind] in Hresult.
  destruct (_calcBbox (take 4 <$> predictions) ratio) as [boxesXyxy |]
    eqn:Hcalc; [| done].
  cbn [mbind option_bind] in Hresult. unfold _multiclassNms in Hresult.
  destruct (_multiclassNmsClassAgnostic boxesXyxy
              ((λ row, [nth 4 row 0 * nth 5 row 0]) <$> predictions)
              (45 # 100) (1 # 10)) as [detections |] eqn:Hnms; [| done].
  cbn [mbind option_bind] in Hresult. injection Hresult as <-.
  by exists predictions, boxesXyxy, detections.
Qed.

(** X25.  Every box [_postProcess] returns comes from one anchor of the
    decoded output: the product of attributes 4 and 5 of the anchor is above
    0.1, and the box is what [_calcBbox] and [_parseToXyxy] make of the
    first four attributes of the anchor. *)
Theorem _postProcess_provenance (cpuData : list Q) (h w c : nat)
    (inputSize : nat * nat) (width height : Z) (ratio : Q)
    (result : list (Z * Z * Z * Z)) :
  _postProcess Math_exp cpuData (h, w, c) inputSize width height ratio
  = Some result →
  ∃ predictions,
    _demoPostProcess Math_exp cpuData (h, w, c) inputSize = Some predictions
    ∧ Forall (λ r, ∃ (j : nat) (row : list Q) (b : box),
                predictions !! j = Some row
                ∧ Qltb (1 # 10) (nth 4 row 0 * nth 5 row 0) = true
                ∧ _calcBbox [take 4 row] ratio = Some [b]
                ∧ _parseToXyxy [b] width height = [r]) result.
Proof.
  intros Hresult.
  destruct (_postProcess_stages _ _ _ _ _ _ _ _ _ Hresult)
    as (predictions & boxesXyxy & detections
        & Hpred & Hrows & Hc & Hcalc & Hnms & ->).
  exists predictions. split; [exact Hpred |].
  assert (Hratio : Qeq_bool ratio 0 = false).
  { unfold _calcBbox in Hcalc. by destruct (Qeq_bool ratio 0). }
  unfold _calcBbox in Hcalc. rewrite Hratio in Hcalc.
  pose proof (length_mapM _ _ _ Hcalc) as Hboxes.
  rewrite length_fmap in Hboxes.
  apply mapM_Some_1 in Hcalc.
  destruct (multiclass_detections boxesXyxy
              ((λ row, [nth 4 row 0 * nth 5 row 0]) <$> predictions)
              (45 # 100) (1 # 10)) as (detections' & Hnms' & Hfrom & _).
  { rewrite (length_concat_singletons (λ row, nth 4 row 0 * nth 5 row 0)). lia. }
  rewrite Hnms in Hnms'. injection Hnms' as <-.
  unfold _parseToXyxy at 1. apply Forall_fmap.
  eapply Forall_impl; [exact Hfrom |].
  intros b (j & score & Hb & Hscore & Habove). simpl.
  rewrite (lookup_concat_singletons (λ row, nth 4 row 0 * nth 5 row 0))
    in Hscore.
  destruct (predictions !! j) as [row |] eqn:Hrow; [| done].
  injection Hscore as <-.
  exists j, row, b. split; [done |]. split; [exact Habove |].
  split; [| by destruct b as [[[x1 y1] x2] y2]].
  destruct (Forall2_lookup_r _ _ _ _ _ Hcalc Hb) as (row4 & Hrow4 & Hcorner).
  rewrite list_lookup_fmap, Hrow in Hrow4. injection Hrow4 as <-.
  unfold _calcBbox. rewrite Hratio. cbn [mapM]. simpl in Hcorner.
  by rewrite Hcorner.
Qed.

End pipeline_properties.

Section pipeline_examples.

Import DetectionBase.
Local Open Scope Q_scope.

Lemma _postProcess_returns_witness :
  ∃ result,
    _postProcess (λ x, 1 + x) [1; 2; 3; 4; 1; 1] (1, 1, 6)%nat (8, 8)%nat
      416 416 (1 # 2) = Some result
    ∧ (length result ≤ 1)%nat
    ∧ Forall (λ '(minX, minY, maxX, maxY),
                (0 <= minX)%Z ∧ (0 <= minY)%Z
                ∧ (9 <= 416 → maxX <= 416)%Z
                ∧ (9 <= 416 → maxY <= 416)%Z) result.
Proof.
  apply (_postProcess_returns (λ x, 1 + x) [1; 2; 3; 4; 1; 1] 1 1 6
           (8, 8)%nat 416 416 (1 # 2)); try (simpl; lia).
  intros Hzero. by vm_compute in Hzero.
Defined.

Lemma _postProcess_throws_witness :
  _postProcess (λ x, 1 + x) [1; 2; 3; 4; 1] (1, 1, 5)%nat (8, 8)%nat
    416 416 (1 # 2) = None.
Proof.
  apply (_postProcess_throws (λ x, 1 + x) [1; 2; 3; 4; 1] 1 1 5
           (8, 8)%nat 416 416 (1 # 2)).
  right. right. right. right. lia.
Defined.

Lemma _postProcess_provenance_witness :
  ∃ predictions,
    _demoPostProcess (λ x, 1 + x) [1; 2; 3; 4; 1; 1] (1, 1, 6)%nat (8, 8)%nat
    = Some predictions
    ∧ Forall (λ r, ∃ (j : nat) (row : list Q) (b : box),
                predictions !! j = Some row
                ∧ Qltb (1 # 10) (nth 4 row 0 * nth 5 row 0) = true
                ∧ _calcBbox [take 4 row] (1 # 2) = Some [b]
                ∧ _parseToXyxy [b] 416 416 = [r]) [(0, 0, 48, 72)%Z].
Proof.
  apply (_postProcess_provenance (λ x, 1 + x) [1; 2; 3; 4; 1; 1] 1 1 6
           (8, 8)%nat 416 416 (1 # 2) [(0, 0, 48, 72)%Z]).
  reflexivity.
Defined.

End pipeline_examples.

(** ** The decoder on repeats, blanks and restricted character sets *)

Section decoder_properties.

Import OcrBase.

Implicit Types (this : OCRBase) (charset : list string) (c : string).

(** The loop of [_parseToChar] from its first state. *)
Lemma parse_from_start this (argmaxData : list nat) charset :
  _parseToChar this argmaxData charset
  = Spec.decode_from (_validCharSet this) (_inValidCharSet this) charset 0
      argmaxData.
Proof.
  unfold _parseToChar.
  exact (parse_loop_decode this charset argmaxData []
           {| lastItem := 0; result := [] |}).
Qed.

Lemma decode_from_repeat (validSet invalidSet : gset string) charset
    (before after : list nat) (item last : nat) :
  Spec.decode_from validSet invalidSet charset last
    (before ++ item :: item :: after)
  = Spec.decode_from validSet invalidSet charset last (before ++ item :: after).
Proof.
  revert last. induction before as [|first before IH]; intros last.
  - cbn [app Spec.decode_from].
    destruct (item =? last)%nat; [done |].
    by rewrite Nat.eqb_refl.
  - cbn [app Spec.decode_from].
    destruct (first =? last)%nat; [apply IH |].
    by rewrite IH.
Qed.

(** X15.  A position that repeats the position before it adds nothing: the
    decoder returns the same string with and without it. *)
Theorem _parseToChar_repeat this charset (before after : list nat) (item : nat) :
  _parseToChar this (before ++ item :: item :: after) charset
  = _parseToChar this (before ++ item :: after) charset.
Proof. rewrite !parse_from_start. apply decode_from_repeat. Qed.

Lemma decode_from_blank (validSet invalidSet : gset string) charset
    (before after : list nat) (last : nat) :
  Spec.decode_from validSet invalidSet charset last (before ++ 0%nat :: after)
  = Spec.decode_from validSet invalidSet charset last before
    +:+ Spec.decode_from validSet invalidSet charset 0 after.
Proof.
  revert last. induction before as [|first before IH]; intros last.
  - cbn [app Spec.decode_from].
    destruct (Nat.eqb_spec 0 last) as [<- | Hlast]; [done |].
    cbn [negb andb Nat.eqb]. by destruct (charset !! 0%nat).
  - cbn [app Spec.decode_from].
    destruct (first =? last)%nat; [apply IH |].
    rewrite IH.
    destruct (charset !! first) as [c |]; [| done].
    destruct (negb (first =? 0)%nat && Spec.admissible validSet invalidSet c);
      [| done].
    by rewrite append_assoc.
Qed.

(** X16.  A blank (index 0) separates: the string of a sequence is the
    string of what stands before the blank followed by the string of what
    stands after it.  So a blank between two equal indices makes the
    character appear twice. *)
Theorem _parseToChar_blank this charset (before after : list nat) :
  _parseToChar this (before ++ 0%nat :: after) charset
  = _parseToChar this before charset +:+ _parseToChar this after charset.
Proof. rewrite !parse_from_start. apply decode_from_blank. Qed.

Lemma decode_from_emitted this charset (argmaxData : list nat) (last : nat) :
  ∃ emitted : list nat,
    emitted `sublist_of` argmaxData
    ∧ Forall (λ item, item ≠ 0%nat
                      ∧ _isValidChar this (charset !! item) = true) emitted
    ∧ Spec.decode_from (_validCharSet this) (_inValidCharSet this) charset last
        argmaxData
      = join ((λ item, charset !! item) <$> emitted).
Proof.
  revert last. induction argmaxData as [|item argmaxData IH]; intros last.
  - exists []. split; [done |]. split; [constructor | done].
  - cbn [Spec.decode_from].
    destruct (item =? last)%nat.
    + destruct (IH last) as (emitted & Hsub & Hall & ->).
      exists emitted. split; [by apply sublist_cons | done].
    + destruct (IH item) as (emitted & Hsub & Hall & ->).
      destruct (charset !! item) as [c |] eqn:Hc;
        [| exists emitted; split; [by apply sublist_cons | done]].
      destruct (Nat.eqb_spec item 0) as [-> | Hitem]; cbn [negb andb];
        [exists emitted; split; [by apply sublist_cons | done] |].
      destruct (Spec.admissible (_validCharSet this) (_inValidCharSet this) c)
        eqn:Hadm; [| exists emitted; split; [by apply sublist_cons | done]].
      exists (item :: emitted). split; [by apply sublist_skip |]. split.
      * constructor; [| exact Hall].
        split; [done |]. by rewrite Hc, _isValidChar_admissible.
      * rewrite fmap_cons. cbn [join foldr]. by rewrite Hc.
Qed.

(** X17.  The string [_parseToChar] returns is made of the charset entries
    of some of the positions, in their order; each of these positions
    holds an index other than 0 whose character passed [_isValidChar]. *)
Theorem _parseToChar_emitted this charset (argmaxData : list nat) :
  ∃ emitted : list nat,
    emitted `sublist_of` argmaxData
    ∧ Forall (λ item, item ≠ 0%nat
                      ∧ _isValidChar this (charset !! item) = true) emitted
    ∧ _parseToChar this argmaxData charset
      = join ((λ item, charset !! item) <$> emitted).
Proof. rewrite parse_from_start. apply decode_from_emitted. Qed.

(** *** After [setRanges] *)

Lemma string_chars_nil (s : string) : string_chars s = [] ↔ s = "".
Proof. by destruct s. Qed.

Lemma new_Set_empty (s : string) : new_Set s = ∅ ↔ s = "".
Proof.
  rewrite <- string_chars_nil. unfold new_Set. split.
  - intros Hempty. destruct (string_chars s) as [|c l]; [done |].
    assert (Hc : c ∈ (∅ : gset string)) by (rewrite <- Hempty; set_solver).
    by apply not_elem_of_empty in Hc.
  - by intros ->.
Qed.

(** X18.  After [setRanges] with a string, [_isValidChar] accepts the
    characters of the string that are not in the invalid set; with the
    empty string it accepts every character that is not in the invalid
    set. *)
Theorem setRanges_string_accepts (s : string) this c :
  _isValidChar (snd (setRanges (JSString s) this)) (Some c) = true
  ↔ (c ∉ _inValidCharSet this) ∧ (s = "" ∨ c ∈ string_chars s).
Proof.
  rewrite _isValidChar_admissible. cbn [setRanges bind setValidCharSet ret snd
    _validCharSet _inValidCharSet].
  unfold Spec.admissible.
  destruct (decide (c ∈ _inValidCharSet this)) as [Hin | Hin];
    [split; [done | tauto] |].
  rewrite bool_decide_eq_true, new_Set_empty.
  unfold new_Set. rewrite elem_of_list_to_set. tauto.
Qed.

Lemma documented_valid_alphanumeric (code : Z) :
  (0 <= code <= 6)%Z →
  Spec.documented_valid code ≠ ∅
  ∧ Spec.documented_valid code ⊆ Spec.lowercase ∪ Spec.uppercase ∪ Spec.digits.
Proof.
  intros Hcode.
  assert (Hcases : code ∈ [0; 1; 2; 3; 4; 5; 6]%Z).
  { rewrite !elem_of_cons. lia. }
  clear Hcode.
  assert (Hd : "0" ∈ Spec.digits) by (by vm_compute).
  assert (Hl : "a" ∈ Spec.lowercase) by (by vm_compute).
  assert (Hu : "A" ∈ Spec.uppercase) by (by vm_compute).
  repeat (apply elem_of_cons in Hcases as [-> | Hcases];
          [cbn [Spec.documented_valid]; split;
           [first [ apply (non_empty_inhabited_L "0"); rewrite ?elem_of_union; tauto
                  | apply (non_empty_inhabited_L "a"); rewrite ?elem_of_union; tauto
                  | apply (non_empty_inhabited_L "A"); rewrite ?elem_of_union; tauto ]
           | intros x; rewrite ?elem_of_union; tauto] |]).
  by apply elem_of_nil in Hcases.
Qed.

Lemma decode_nothing_valid this charset (argmaxData : list nat) :
  (∀ char, _isValidChar this char = false) →
  _parseToChar this argmaxData charset = "".
Proof.
  intros Hnone. rewrite parse_from_start.
  destruct (decode_from_emitted this charset argmaxData 0)
    as (emitted & _ & Hall & ->).
  destruct emitted as [|item emitted]; [done |].
  apply Forall_inv in Hall as [_ Hvalid]. by rewrite Hnone in Hvalid.
Qed.

Lemma nothing_valid this (code : Z) :
  (0 <= code <= 6)%Z →
  _validCharSet this = Spec.documented_valid code →
  _inValidCharSet this = Spec.lowercase ∪ Spec.uppercase ∪ Spec.digits →
  ∀ char, _isValidChar this char = false.
Proof.
  intros Hcode Hvalid Hinvalid.
  destruct (documented_valid_alphanumeric code Hcode) as [Hne Hsub].
  intros [c |].
  - rewrite _isValidChar_admissible, Hvalid, Hinvalid.
    unfold Spec.admissible.
    destruct (decide (c ∈ Spec.lowercase ∪ Spec.uppercase ∪ Spec.digits))
      as [Hin | Hin]; [done |].
    apply bool_decide_eq_false_2. intros [Hempty | Hc]; [done |].
    by apply Hin, Hsub.
  - unfold _isValidChar. cbn [has]. rewrite size_zero_empty, Hvalid.
    by rewrite bool_decide_eq_false_2.
Qed.

(** X19.  After [setRanges] with a code from 0 to 6 and with code 7, in
    either order, the decoder returns the empty string for every sequence
    and every charset: code 7 does not clear the valid set, and every
    character of the valid set is then invalid. *)
Theorem setRanges_range_and_exclusion (code : Z) this
    (argmaxData : list nat) charset :
  (0 <= code <= 6)%Z →
  _parseToChar
    (snd (setRanges (JSNumber (Finite (inject_Z 7)))
            (snd (setRanges (JSNumber (Finite (inject_Z code))) this))))
    argmaxData charset = ""
  ∧ _parseToChar
      (snd (setRanges (JSNumber (Finite (inject_Z code)))
              (snd (setRanges (JSNumber (Finite (inject_Z 7))) this))))
      argmaxData charset = "".
Proof.
  intros Hcode.
  assert (Hkind : Spec.range_kind_of (JSNumber (Finite (inject_Z code)))
                  = Spec.NewValid (Spec.documented_valid code)).
  { unfold Spec.range_kind_of. rewrite integer_of_inject_Z.
    by rewrite (proj2 (andb_true_iff _ _)) by (split; lia). }
  assert (Hseven : Spec.range_kind_of (JSNumber (Finite (inject_Z 7)))
                   = Spec.NewInvalid
                       (Spec.lowercase ∪ Spec.uppercase ∪ Spec.digits)).
  { unfold Spec.range_kind_of. by rewrite integer_of_inject_Z. }
  split; apply decode_nothing_valid, (nothing_valid _ code Hcode);
    by rewrite !setRanges_range_kind, Hkind, Hseven.
Qed.

Lemma setRanges_range_and_exclusion_witness :
  _parseToChar
    (snd (setRanges (JSNumber (Finite (inject_Z 7)))
            (snd (setRanges (JSNumber (Finite (inject_Z 0)))
                    (constructor "model.onnx" "charsets.json")))))
    [1; 2]%nat [""; "1"; "2"] = ""
  ∧ _parseToChar
      (snd (setRanges (JSNumber (Finite (inject_Z 0)))
              (snd (setRanges (JSNumber (Finite (inject_Z 7)))
                      (constructor "model.onnx" "charsets.json")))))
      [1; 2]%nat [""; "1"; "2"] = "".
Proof.
  apply (setRanges_range_and_exclusion 0
           (constructor "model.onnx" "charsets.json") [1; 2]%nat [""; "1"; "2"]).
  lia.
Defined.

End decoder_properties.

(** ** The tensors of [OcrBase.js] *)

Section ocr_tensor_properties.

Import OcrBase DetectionBase OcrTensors.
Local Open Scope Q_scope.

Implicit Types (this : OCRBase) (charset : list string) (row : list Q).

(** *** The input of the model *)

Lemma normalise_range (byte : Z) :
  (0 <= byte <= 255)%Z → -1 <= normalise byte <= 1.
Proof.
  intros [Hlow Hhigh]. unfold normalise.
  rewrite Zle_Qle in Hlow, Hhigh.
  change (inject_Z 0) with 0 in Hlow. change (inject_Z 255) with 255 in Hhigh.
  split.
  - apply Qle_shift_div_l; [reflexivity |].
    assert (0 <= inject_Z byte / 255)
      by (apply Qle_shift_div_l; [reflexivity | lra]).
    lra.
  - apply Qle_shift_div_r; [reflexivity |].
    assert (inject_Z byte / 255 <= 1)
      by (apply Qle_shift_div_r; [reflexivity | lra]).
    lra.
Qed.

(** The array after [n] turns of the loop. *)
Lemma floatData_turns (data : list Z) (size n : nat) :
  let floatData :=
    foldl (λ floatData j,
             match data !! (4 * j)%nat with
             | Some byte => <[j := normalise byte]> floatData
             | None => floatData
             end)
          (replicate size 0) (seq 0 n) in
  length floatData = size
  ∧ ∀ j, (j < size)%nat →
      floatData !! j
      = Some (if (j <? n)%nat
              then match data !! (4 * j)%nat with
                   | Some byte => normalise byte
                   | None => 0
                   end
              else 0).
Proof.
  induction n as [|n [IHlen IH]]; cbv zeta.
  - split; [apply length_replicate |].
    intros j Hj. by apply lookup_replicate_2.
  - rewrite seq_S, foldl_app. cbn [foldl Nat.add].
    set (floatData := foldl _ (replicate size 0) (seq 0 n)) in *.
    cbv zeta in IHlen, IH.
    destruct (data !! (4 * n)%nat) as [byte |] eqn:Hbyte.
    + split; [by rewrite length_insert |].
      intros j Hj. destruct (decide (j = n)) as [-> | Hne].
      * rewrite list_lookup_insert_eq by lia.
        by rewrite (proj2 (Nat.ltb_lt _ _)), Hbyte by lia.
      * rewrite list_lookup_insert_ne by done. rewrite IH by done.
        destruct (Nat.ltb_spec j n), (Nat.ltb_spec j (S n)); done || lia.
    + split; [done |].
      intros j Hj. rewrite IH by done.
      destruct (Nat.ltb_spec j n), (Nat.ltb_spec j (S n)); try done; try lia.
      assert (j = n) as -> by lia. by rewrite Hbyte.
Qed.

(** X20.  [floatData] has [targetWidth * targetHeight] elements.  Element
    [j] is the first byte of pixel [j] of the bitmap, [(v / 255 - 0.5) /
    0.5], and 0 when the bitmap has no such pixel; the other three bytes of
    a pixel are not read.  For bytes from 0 to 255 every element is between
    -1 and 1. *)
Theorem _preProcessImage_floatData_pixels (data : list Z)
    (targetWidth targetHeight : nat) :
  length (_preProcessImage_floatData data targetWidth targetHeight)
  = (targetWidth * targetHeight)%nat
  ∧ (∀ j, (j < targetWidth * targetHeight)%nat →
       _preProcessImage_floatData data targetWidth targetHeight !! j
       = Some (match data !! (4 * j)%nat with
               | Some byte => normalise byte
               | None => 0
               end))
  ∧ (Forall (λ byte, (0 <= byte <= 255)%Z) data →
     Forall (λ x, -1 <= x <= 1)
            (_preProcessImage_floatData data targetWidth targetHeight)).
Proof.
  unfold _preProcessImage_floatData.
  destruct (floatData_turns data (targetWidth * targetHeight)
              ((length data + 3) / 4)) as [Hlen Hlookup].
  assert (Hpixels :
    ∀ j, (j < targetWidth * targetHeight)%nat →
      foldl (λ floatData j,
               match data !! (4 * j)%nat with
               | Some byte => <[j := normalise byte]> floatData
               | None => floatData
               end)
            (replicate (targetWidth * targetHeight) 0)
            (seq 0 ((length data + 3) / 4)) !! j
      = Some (match data !! (4 * j)%nat with
              | Some byte => normalise byte
              | None => 0
              end)).
  { intros j Hj. rewrite Hlookup by done.
    destruct (Nat.ltb_spec j ((length data + 3) / 4)) as [Hlt | Hge]; [done |].
    rewrite (lookup_ge_None_2 data); [done |].
    pose proof (Nat.div_mod_eq (length data + 3) 4) as Hdiv.
    pose proof (Nat.mod_upper_bound (length data + 3) 4) as Hmod. lia. }
  split; [exact Hlen |]. split; [exact Hpixels |].
  intros Hbytes. apply Forall_lookup_2. intros j x Hx.
  rewrite Hpixels in Hx by (rewrite <- Hlen; by eapply lookup_lt_Some).
  destruct (data !! (4 * j)%nat) as [byte |] eqn:Hbyte; injection Hx as <-;
    [| by split].
  apply normalise_range. exact (Forall_lookup_1 _ _ _ _ Hbytes Hbyte).
Qed.

(** *** The output of the model *)

Lemma Qltb_lt (a b : Q) : Qltb a b = true ↔ a < b.
Proof.
  unfold Qltb. rewrite negb_true_iff. split.
  - intros Hle. apply Qnot_le_lt. intros Hba%Qle_bool_iff. congruence.
  - intros Hlt. apply not_true_is_false. intros Hba%Qle_bool_iff.
    by apply Qlt_not_le in Hlt.
Qed.

Lemma argMax_from_fmap (f : Q → Q) (max : Q) (maxIndex j : nat) row :
  (∀ a b, a < b ↔ f a < f b) →
  argMax_from (f max) maxIndex j (f <$> row) = argMax_from max maxIndex j row.
Proof.
  intros Hf. revert max maxIndex j.
  induction row as [|value row IH]; intros max maxIndex j; [done |].
  rewrite fmap_cons. cbn [argMax_from].
  assert (Hsame : Qltb (f max) (f value) = Qltb max value).
  { apply eq_true_iff_eq. rewrite !Qltb_lt. symmetry. apply Hf. }
  rewrite Hsame. destruct (Qltb max value); apply IH.
Qed.

Lemma argMax_fmap (f : Q → Q) row :
  (∀ a b, a < b ↔ f a < f b) → argMax (f <$> row) = argMax row.
Proof.
  intros Hf. destruct row as [|first row]; [done |].
  exact (argMax_from_fmap f first 0 0 (first :: row) Hf).
Qed.

Lemma chunks_fmap {A B} (f : A → B) (count size : nat) (data : list A) :
  chunks count size (f <$> data)
  = (λ row : list A, f <$> row) <$> chunks count size data.
Proof.
  revert data. induction count as [|count IH]; intros data; [done |].
  cbn [chunks]. rewrite fmap_cons.
  by rewrite <- fmap_take, <- fmap_drop, IH.
Qed.

(** X21.  The text [postProcess] returns depends on the order of the
    elements within each row only: it is the same for a tensor and for the
    tensor with an increasing function applied to every element. *)
Theorem postProcess_increasing this (f : Q → Q) (cpuData : list Q)
    (dims : nat * nat * nat) charset :
  (∀ a b, a < b ↔ f a < f b) →
  postProcess this (f <$> cpuData) dims charset
  = postProcess this cpuData dims charset.
Proof.
  intros Hf. destruct dims as [[d0 d1] d2]. unfold postProcess, reshape.
  rewrite length_fmap.
  destruct (length cpuData =? d0 * d1 * d2)%nat; [| done].
  cbn [mbind option_bind]. do 3 f_equal.
  rewrite chunks_fmap, <- !list_fmap_compose.
  apply list_fmap_ext. intros _ batch _. simpl.
  rewrite chunks_fmap, <- list_fmap_compose.
  apply list_fmap_ext. intros _ row _. simpl. by apply argMax_fmap.
Qed.

Lemma postProcess_increasing_witness :
  postProcess (constructor "model.onnx" "charsets.json")
    ((λ x, x + 1) <$> [9; 1; 0; 0; 8; 1]) (2, 1, 3)%nat [""; "a"; "b"]
  = postProcess (constructor "model.onnx" "charsets.json")
      [9; 1; 0; 0; 8; 1] (2, 1, 3)%nat [""; "a"; "b"].
Proof.
  apply (postProcess_increasing (constructor "model.onnx" "charsets.json")
           (λ x, x + 1) [9; 1; 0; 0; 8; 1] (2, 1, 3)%nat [""; "a"; "b"]).
  intros a b. symmetry. apply Qplus_lt_l.
Defined.

(** A scan that meets nothing greater keeps its index. *)
Lemma argMax_from_keeps (max : Q) (maxIndex j : nat) row :
  Forall (λ value, value <= max) row →
  argMax_from max maxIndex j row = maxIndex.
Proof.
  intros Hall. revert j.
  induction Hall as [|value row Hvalue _ IH]; intros j; [done |].
  cbn [argMax_from].
  assert (Hnot : Qltb max value = false).
  { apply not_true_is_false. intros Hlt%Qltb_lt. by apply Qlt_not_le in Hlt. }
  rewrite Hnot. apply IH.
Qed.

(** A scan towards an element that is greater than every other element
    ends on it. *)
Lemma argMax_from_peak (max : Q) (maxIndex j : nat) row (n : nat) (v : Q) :
  row !! n = Some v →
  (∀ i w, row !! i = Some w → i ≠ n → w < v) →
  max < v ∨ (max == v ∧ maxIndex = (j + n)%nat) →
  argMax_from max maxIndex j row = (j + n)%nat.
Proof.
  revert max maxIndex j n.
  induction row as [|value row IH]; intros max maxIndex j n Hn Hothers Hmax;
    [done |].
  assert (Hrest : ∀ i w, row !! i = Some w → S i ≠ n → w < v).
  { intros i w Hi Hne. by apply (Hothers (S i) w). }
  cbn [argMax_from]. destruct n as [|n].
  - injection Hn as ->.
    assert (Hbelow : ∀ bound, v <= bound →
                       Forall (λ value, value <= bound) row).
    { intros bound Hbound. apply Forall_lookup_2. intros i w Hi.
      apply Qlt_le_weak. eapply Qlt_le_trans; [| exact Hbound].
      by apply (Hrest i w). }
    destruct (Qltb max v) eqn:Hlt.
    + rewrite argMax_from_keeps; [lia |]. apply Hbelow, Qle_refl.
    + destruct Hmax as [Hmax | [Hmax ->]];
        [apply Qltb_lt in Hmax; congruence |].
      rewrite argMax_from_keeps; [done |]. apply Hbelow.
      rewrite Hmax. apply Qle_refl.
  - assert (Hvalue : value < v) by (by apply (Hothers 0%nat value)).
    replace (j + S n)%nat with (S j + n)%nat by lia.
    destruct (Qltb max value) eqn:Hlt.
    + apply IH; [done | | by left].
      intros i w Hi Hne. apply (Hrest i w); [done | lia].
    + apply IH; [done | |].
      * intros i w Hi Hne. apply (Hrest i w); [done | lia].
      * destruct Hmax as [Hmax | [Hmax ->]]; [by left |].
        right. split; [done | lia].
Qed.

Lemma argMax_peak row (n : nat) (v : Q) :
  row !! n = Some v →
  (∀ i w, row !! i = Some w → i ≠ n → w < v) →
  argMax row = n.
Proof.
  intros Hn Hothers. destruct row as [|first row]; [done |].
  unfold argMax.
  rewrite (argMax_from_peak first 0 0 (first :: row) n v Hn Hothers); [done |].
  destruct n as [|n].
  - injection Hn as ->. right. by split.
  - left. by apply (Hothers 0%nat first).
Qed.

Lemma chunks_app {A} (count count' size : nat) (data : list A) :
  chunks (count + count') size data
  = chunks count size data ++ chunks count' size (drop (count * size) data).
Proof.
  revert data. induction count as [|count IH]; intros data.
  - by rewrite drop_0.
  - cbn [Nat.add chunks app]. rewrite IH, drop_drop. reflexivity.
Qed.

Lemma concat_chunks {A} (d0 d1 d2 : nat) (data : list A) :
  concat (chunks d1 d2 <$> chunks d0 (d1 * d2) data) = chunks (d0 * d1) d2 data.
Proof.
  revert data. induction d0 as [|d0 IH]; intros data; [done |].
  cbn [chunks]. rewrite fmap_cons. cbn [concat].
  rewrite chunks_take, IH.
  replace (S d0 * d1)%nat with (d1 + d0 * d1)%nat by lia.
  by rewrite chunks_app.
Qed.

Lemma concat_fmap_fmap {A B} (f : A → B) (batches : list (list A)) :
  concat ((λ batch : list A, f <$> batch) <$> batches) = f <$> concat batches.
Proof.
  induction batches as [|batch batches IH]; [done |].
  rewrite fmap_cons. cbn [concat]. by rewrite IH, fmap_app.
Qed.

(** X22.  When every row of the tensor has an element greater than every
    other element of the row, [postProcess] returns the string that
    [_parseToChar] makes of the positions of these elements. *)
Theorem postProcess_peaks this (cpuData : list Q) (d0 d1 d2 : nat) charset
    (peaks : list nat) :
  length cpuData = (d0 * d1 * d2)%nat →
  Forall2 (λ peak row,
             ∃ v, row !! peak = Some v
                  ∧ ∀ i w, row !! i = Some w → i ≠ peak → w < v)
          peaks (chunks (d0 * d1) d2 cpuData) →
  postProcess this cpuData (d0, d1, d2) charset
  = Some (_parseToChar this peaks charset).
Proof.
  intros Hlen Hpeaks. unfold postProcess, reshape.
  rewrite (proj2 (Nat.eqb_eq _ _) Hlen). cbn [mbind option_bind].
  do 2 f_equal.
  rewrite (concat_fmap_fmap argMax), concat_chunks.
  symmetry. apply list_eq_Forall2, Forall2_fmap_r.
  eapply Forall2_impl; [exact Hpeaks |].
  intros peak row (v & Hpeak & Hothers). simpl.
  symmetry. by eapply argMax_peak.
Qed.

Lemma postProcess_peaks_witness :
  postProcess (constructor "model.onnx" "charsets.json")
    [9; 1; 0; 0; 8; 1] (2, 1, 3)%nat [""; "a"; "b"]
  = Some (_parseToChar (constructor "model.onnx" "charsets.json")
            [0; 1]%nat [""; "a"; "b"]).
Proof.
  apply (postProcess_peaks (constructor "model.onnx" "charsets.json")
           [9; 1; 0; 0; 8; 1] 2 1 3 [""; "a"; "b"] [0; 1]%nat).
  - reflexivity.
  - repeat constructor.
    + exists 9. split; [done |].
      intros [|[|[|i]]] w Hi Hne; try done; injection Hi as <-; reflexivity.
    + exists 8. split; [done |].
      intros [|[|[|i]]] w Hi Hne; try done; injection Hi as <-; reflexivity.
Defined.

End ocr_tensor_properties.

(** ** The input tensor of [DetectionBase.js] *)

Section input_tensor_properties.

Import DetectionBase.
Local Open Scope nat_scope.

Implicit Types (floatData : list (list (list Q))) (data : list Z)
  (row : list (list Q)) (pixel : list Q).

(** The pixel the body of the loop writes from the bytes at [index]: the
    bytes in the reverse order. *)
Local Abbreviation written data index :=
  [inject_Z (nth (index + 2) data 0%Z); inject_Z (nth (index + 1) data 0%Z);
   inject_Z (nth (index + 0) data 0%Z)].

Lemma copy_pixel_writes data (h w : nat) floatData (index : nat) row pixel :
  floatData !! h = Some row → row !! w = Some pixel → length pixel = 3 →
  index + 4 ≤ length data →
  copy_pixel data h w (floatData, index)
  = Some (<[h := <[w := written data index]> row]> floatData, index + 4).
Proof.
  intros Hrow Hpixel Hlen Hdata. unfold copy_pixel.
  rewrite Hrow. cbn [mbind option_bind]. rewrite Hpixel. cbn [mbind option_bind].
  destruct (lookup_lt_is_Some_2 data (index + 2)) as [v0 Hv0]; [lia |].
  destruct (lookup_lt_is_Some_2 data (index + 1)) as [v1 Hv1]; [lia |].
  destruct (lookup_lt_is_Some_2 data (index + 0)) as [v2 Hv2]; [lia |].
  rewrite Hv0, Hv1, Hv2. cbn [mbind option_bind].
  rewrite (nth_lookup_Some _ _ 0%Z _ Hv0), (nth_lookup_Some _ _ 0%Z _ Hv1),
    (nth_lookup_Some _ _ 0%Z _ Hv2).
  by destruct pixel as [|p0 [|p1 [|p2 [|p3 pixel]]]].
Qed.

(** The inner loop, from pixel [w0] on. *)
Lemma copy_row data (h n w0 : nat) floatData (index : nat) row :
  floatData !! h = Some row → w0 + n ≤ length row →
  Forall (λ pixel, length pixel = 3) row →
  index + 4 * n ≤ length data →
  ∃ row',
    foldl (λ state w, state ≫= copy_pixel data h w) (Some (floatData, index))
          (seq w0 n)
    = Some (<[h := row']> floatData, index + 4 * n)
    ∧ length row' = length row
    ∧ Forall (λ pixel, length pixel = 3) row'
    ∧ ∀ x, row' !! x
           = if (w0 <=? x) && (x <? w0 + n)
             then Some (written data (index + 4 * (x - w0)))
             else row !! x.
Proof.
  revert w0 floatData index row.
  induction n as [|n IH]; intros w0 floatData index row Hrow Hwidth Hpixels Hdata.
  - exists row. cbn [seq foldl]. rewrite list_insert_id by done.
    replace (index + 4 * 0) with index by lia.
    repeat split; try done.
    intros x. destruct (Nat.leb_spec w0 x), (Nat.ltb_spec x (w0 + 0)); done || lia.
  - destruct (lookup_lt_is_Some_2 row w0) as [pixel Hpixel]; [lia |].
    cbn [seq foldl]. cbn [mbind option_bind].
    rewrite (copy_pixel_writes data h w0 floatData index row pixel)
      by (done || exact (Forall_lookup_1 _ _ _ _ Hpixels Hpixel) || lia).
    destruct (IH (S w0)
                (<[h := <[w0 := written data index]> row]> floatData)
                (index + 4) (<[w0 := written data index]> row))
      as (row' & Hfold & Hlen & Hall & Hlookup).
    + apply list_lookup_insert_eq. by eapply lookup_lt_Some.
    + rewrite length_insert. lia.
    + by apply Forall_insert.
    + lia.
    + exists row'. rewrite Hfold, list_insert_insert_eq.
      split; [do 2 f_equal; lia |].
      split; [by rewrite Hlen, length_insert |].
      split; [exact Hall |].
      intros x. rewrite Hlookup.
      destruct (decide (x = w0)) as [-> | Hne].
      * rewrite list_lookup_insert_eq by lia.
        destruct (Nat.leb_spec (S w0) w0), (Nat.leb_spec w0 w0),
          (Nat.ltb_spec w0 (w0 + S n)); cbn [andb]; try lia.
        by replace (index + 4 * (w0 - w0)) with index by lia.
      * rewrite list_lookup_insert_ne by done.
        destruct (Nat.leb_spec (S w0) x), (Nat.leb_spec w0 x),
          (Nat.ltb_spec x (S w0 + n)), (Nat.ltb_spec x (w0 + S n));
          cbn [andb]; try lia; try done.
        by replace (index + 4 + 4 * (x - S w0)) with (index + 4 * (x - w0))
          by lia.
Qed.

(** The two loops, from row [h0] on. *)
Lemma copy_rows data (resizedWidth width m h0 : nat) floatData (index : nat) :
  h0 + m ≤ length floatData → resizedWidth ≤ width →
  Forall (λ row, length row = width ∧ Forall (λ pixel, length pixel = 3) row)
         floatData →
  index + 4 * (m * resizedWidth) ≤ length data →
  ∃ floatData',
    foldl (λ state h,
             foldl (λ state w, state ≫= copy_pixel data h w) state
                   (seq 0 resizedWidth))
          (Some (floatData, index)) (seq h0 m)
    = Some (floatData', index + 4 * (m * resizedWidth))
    ∧ length floatData' = length floatData
    ∧ Forall (λ row, length row = width ∧ Forall (λ pixel, length pixel = 3) row)
             floatData'
    ∧ ∀ y x, floatData' !! y ≫= (.!! x)
             = if (h0 <=? y) && (y <? h0 + m) && (x <? resizedWidth)
               then Some (written data
                            (index + 4 * ((y - h0) * resizedWidth + x)))
               else floatData !! y ≫= (.!! x).
Proof.
  revert h0 floatData index.
  induction m as [|m IH]; intros h0 floatData index Hheight Hwidth Hshape Hdata.
  - exists floatData. cbn [seq foldl].
    replace (index + 4 * (0 * resizedWidth)) with index by lia.
    repeat split; try done.
    intros y x. destruct (Nat.leb_spec h0 y), (Nat.ltb_spec y (h0 + 0)); done || lia.
  - destruct (lookup_lt_is_Some_2 floatData h0) as [row Hrow]; [lia |].
    destruct (Forall_lookup_1 _ _ _ _ Hshape Hrow) as [Hlen Hpixels].
    destruct (copy_row data h0 resizedWidth 0 floatData index row)
      as (row' & Hfold & Hlen' & Hpixels' & Hlookup'); [done | lia | done | lia |].
    cbn [seq foldl]. rewrite Hfold.
    destruct (IH (S h0) (<[h0 := row']> floatData) (index + 4 * resizedWidth))
      as (floatData' & Hfolds & Hcount & Hshape' & Hlookup).
    + rewrite length_insert. lia.
    + done.
    + apply Forall_insert; [done |]. split; [lia | done].
    + lia.
    + exists floatData'. rewrite Hfolds.
      split; [do 2 f_equal; lia |].
      split; [by rewrite Hcount, length_insert |].
      split; [exact Hshape' |].
      intros y x. rewrite Hlookup.
      destruct (decide (y = h0)) as [-> | Hne].
      * rewrite list_lookup_insert_eq by lia. rewrite Hrow.
        cbn [mbind option_bind]. rewrite Hlookup'.
        destruct (Nat.leb_spec (S h0) h0), (Nat.leb_spec h0 h0),
          (Nat.ltb_spec h0 (h0 + S m)), (Nat.leb_spec 0 x),
          (Nat.ltb_spec x (0 + resizedWidth)), (Nat.ltb_spec x resizedWidth);
          cbn [andb]; try lia; try done.
        by replace (index + 4 * ((h0 - h0) * resizedWidth + x))
          with (index + 4 * (x - 0)) by lia.
      * rewrite list_lookup_insert_ne by done.
        destruct (Nat.leb_spec (S h0) y), (Nat.leb_spec h0 y),
          (Nat.ltb_spec y (S h0 + m)), (Nat.ltb_spec y (h0 + S m)),
          (Nat.ltb_spec x resizedWidth); cbn [andb]; try lia; try done.
        replace (y - h0) with (S (y - S h0)) by lia.
        by replace (index + 4 * resizedWidth
                    + 4 * ((y - S h0) * resizedWidth + x))
          with (index + 4 * (S (y - S h0) * resizedWidth + x)) by lia.
Qed.

(** *** Flattening *)

Lemma length_concat_uniform {A} (lists : list (list A)) (n : nat) :
  Forall (λ l, length l = n) lists → length (concat lists) = length lists * n.
Proof.
  induction 1 as [|l lists Hl _ IH]; [done |].
  cbn [concat length]. rewrite length_app, IH, Hl. lia.
Qed.

Lemma lookup_concat_uniform {A} (lists : list (list A)) (n y x : nat) :
  Forall (λ l, length l = n) lists → x < n →
  concat lists !! (y * n + x) = lists !! y ≫= (.!! x).
Proof.
  intros Hall Hx. revert y.
  induction Hall as [|l lists Hl _ IH]; intros y; [done |].
  cbn [concat]. destruct y as [|y].
  - rewrite lookup_app_l by lia. done.
  - rewrite lookup_app_r by lia.
    replace (S y * n + x - length l) with (y * n + x) by lia. apply IH.
Qed.

Lemma planes_uniform floatData (height width : nat) :
  length floatData = height →
  Forall (λ row, length row = width ∧ Forall (λ pixel, length pixel = 3) row)
         floatData →
  Forall (λ plane : list Q, length plane = height * width)
    ((λ channel : nat,
        concat ((λ row : list (list Q),
                   (λ pixel : list Q, nth channel pixel 0%Q) <$> row)
                  <$> floatData)) <$> seq 0 3).
Proof.
  intros Hheight Hshape.
  apply Forall_fmap, Forall_forall. intros c _. simpl.
  rewrite (length_concat_uniform _ width), length_fmap; [by rewrite Hheight |].
  apply Forall_fmap. eapply Forall_impl; [exact Hshape |]. simpl.
  intros row [Hrow _]. by rewrite length_fmap.
Qed.

Lemma length_transpose_dataSync floatData (height width : nat) :
  length floatData = height →
  Forall (λ row, length row = width ∧ Forall (λ pixel, length pixel = 3) row)
         floatData →
  length (transpose_dataSync floatData) = 3 * (height * width).
Proof.
  intros Hheight Hshape. unfold transpose_dataSync.
  rewrite (length_concat_uniform _ (height * width))
    by (by apply planes_uniform).
  by rewrite length_fmap, length_seq.
Qed.

Lemma transpose_dataSync_lookup floatData (height width channel y x : nat) :
  length floatData = height →
  Forall (λ row, length row = width ∧ Forall (λ pixel, length pixel = 3) row)
         floatData →
  channel < 3 → y < height → x < width →
  transpose_dataSync floatData !! (channel * (height * width) + y * width + x)
  = (floatData !! y ≫= (.!! x)) ≫= λ pixel, Some (nth channel pixel 0%Q).
Proof.
  intros Hheight Hshape Hchannel Hy Hx. unfold transpose_dataSync.
  assert (Hinside : y * width + x < height * width) by nia.
  rewrite <- Nat.add_assoc.
  rewrite (lookup_concat_uniform _ (height * width))
    by (done || by apply planes_uniform).
  rewrite list_lookup_fmap, lookup_seq_lt by done.
  cbn [fmap option_fmap option_map mbind option_bind Nat.add].
  rewrite (lookup_concat_uniform _ width); [| | done].
  - rewrite list_lookup_fmap.
    destruct (floatData !! y) as [row |]; [| done].
    cbn [fmap option_fmap option_map mbind option_bind].
    rewrite list_lookup_fmap. by destruct (row !! x).
  - apply Forall_fmap. eapply Forall_impl; [exact Hshape |]. simpl.
    intros row [Hrow _]. by rewrite length_fmap.
Qed.

Lemma grayBgImage_shape (size : nat * nat) :
  length (grayBgImage size) = snd size
  ∧ Forall (λ row, length row = fst size
                   ∧ Forall (λ pixel, length pixel = 3) row)
           (grayBgImage size)
  ∧ ∀ y x, y < snd size → x < fst size →
      grayBgImage size !! y ≫= (.!! x) = Some [114; 114; 114]%Q.
Proof.
  unfold grayBgImage. split; [apply length_replicate |]. split.
  - apply Forall_replicate. split; [apply length_replicate |].
    by apply Forall_replicate.
  - intros y x Hy Hx. rewrite lookup_replicate_2 by done.
    cbn [mbind option_bind]. by rewrite lookup_replicate_2.
Qed.

(** The input array for any size of the canvas. *)
Lemma inputArray_layout data (size : nat * nat) (resizedWidth resizedHeight : nat) :
  resizedWidth ≤ fst size → resizedHeight ≤ snd size →
  4 * (resizedHeight * resizedWidth) ≤ length data →
  ∃ inputArray,
    (copy_pixels data resizedWidth resizedHeight (grayBgImage size)
     ≫= λ '(floatData, _), Some (transpose_dataSync floatData))
    = Some inputArray
    ∧ length inputArray = 3 * (snd size * fst size)
    ∧ ∀ channel y x, channel < 3 → y < snd size → x < fst size →
        inputArray !! (channel * (snd size * fst size) + y * fst size + x)
        = Some (if (y <? resizedHeight) && (x <? resizedWidth)
                then inject_Z (nth (4 * (y * resizedWidth + x) + (2 - channel))
                                   data 0%Z)
                else 114%Q).
Proof.
  intros Hwidth Hheight Hdata.
  destruct (grayBgImage_shape size) as (Hcount & Hshape & Hgray).
  destruct (copy_rows data resizedWidth (fst size) resizedHeight 0
              (grayBgImage size) 0)
    as (floatData & Hcopy & Hcount' & Hshape' & Hlookup);
    [lia | done | done | lia |].
  unfold copy_pixels. rewrite Hcopy. cbn [mbind option_bind].
  exists (transpose_dataSync floatData). split; [done |].
  rewrite Hcount in Hcount'.
  split; [by apply length_transpose_dataSync |].
  - intros channel y x Hchannel Hy Hx.
    rewrite (transpose_dataSync_lookup floatData (snd size) (fst size)
               channel y x Hcount' Hshape' Hchannel Hy Hx).
    rewrite Hlookup. rewrite Hgray by done.
    destruct (Nat.leb_spec 0 y), (Nat.ltb_spec y (0 + resizedHeight)),
      (Nat.ltb_spec y resizedHeight), (Nat.ltb_spec x resizedWidth);
      cbn [andb mbind option_bind]; try lia.
    + f_equal.
      replace (0 + 4 * ((y - 0) * resizedWidth + x))
        with (4 * (y * resizedWidth + x)) by (f_equal; f_equal; lia).
      by destruct channel as [|[|[|channel]]]; [| | | lia].
    + by destruct channel as [|[|[|channel]]]; [| | | lia].
    + by destruct channel as [|[|[|channel]]]; [| | | lia].
    + by destruct channel as [|[|[|channel]]]; [| | | lia].
Qed.

(** X23.  For a resized image within the canvas of 416 by 416 pixels and a
    bitmap of four bytes for each of its pixels, [_preProcessImage] builds
    an array of three planes of 416 by 416 elements.  Plane 0 holds the
    third byte of every pixel, plane 1 the second and plane 2 the first
    (blue, green, red), at the position of the pixel; every element outside
    the resized image is 114. *)
Theorem _preProcessImage_inputArray_layout data
    (resizedWidth resizedHeight : nat) :
  resizedWidth ≤ 416 → resizedHeight ≤ 416 →
  4 * (resizedHeight * resizedWidth) ≤ length data →
  ∃ inputArray,
    _preProcessImage_inputArray data resizedWidth resizedHeight
    = Some inputArray
    ∧ length inputArray = 3 * (416 * 416)
    ∧ ∀ channel y x, channel < 3 → y < 416 → x < 416 →
        inputArray !! (channel * (416 * 416) + y * 416 + x)
        = Some (if (y <? resizedHeight) && (x <? resizedWidth)
                then inject_Z (nth (4 * (y * resizedWidth + x) + (2 - channel))
                                   data 0%Z)
                else 114%Q).
Proof.
  exact (inputArray_layout data inputSize resizedWidth resizedHeight).
Qed.

Lemma _preProcessImage_inputArray_layout_witness :
  ∃ inputArray,
    _preProcessImage_inputArray [10; 20; 30; 255]%Z 1 1 = Some inputArray
    ∧ length inputArray = 3 * (416 * 416)
    ∧ ∀ channel y x, channel < 3 → y < 416 → x < 416 →
        inputArray !! (channel * (416 * 416) + y * 416 + x)
        = Some (if (y <? 1) && (x <? 1)
                then inject_Z (nth (4 * (y * 1 + x) + (2 - channel))
                                   [10; 20; 30; 255]%Z 0%Z)
                else 114%Q).
Proof.
  apply (_preProcessImage_inputArray_layout [10; 20; 30; 255]%Z 1 1);
    [lia | lia | simpl; lia].
Defined.

End input_tensor_properties.
